(** * PlatanoBot: the meetup registry of [bot.py]

    A shallow embedding of the file-backed meetup registry of the bot
    ([get_meetups], [save_meetups], [generate_meetup_id] and the command
    handlers [quedadas], [crear_quedada] and [eliminar_quedada]) together
    with the properties of the registry that the specification states.

    Python [int] is [Z]; a [str] that the code only stores and shows is a
    [string], a [str] whose characters it looks at is the list of its code
    points ([pystr]); a [dict] with fixed keys is a record; the JSON file
    is a value of [Contents]; the handlers run in a state monad over the
    file and a log of what was done to it. *)

From Stdlib Require Import ZArith List String Ascii Bool Lia Sorted.
From Stdlib Require Import DecimalString DecimalZ FinFun.
Import ListNotations.

Open Scope string_scope.
Open Scope list_scope.
Open Scope Z_scope.

(* ================================================================= *)
(** ** Data model *)

(** One element of the ["meetups"] list: the dict built in
    [crear_quedada]. *)
Record Meetup := mkMeetup {
  id : Z;
  title : string;
  description : string;
  date : string;
  location : string;
  status : string;
  participants : list string
}.

(** The document of the store, [{"meetups": [...]}]. *)
Record MeetupsData := mkData { meetups : list Meetup }.

(** [default_meetups], also the value [get_meetups] falls back to. *)
Definition default_meetups : MeetupsData := {| meetups := [] |}.

(** The exceptions that the modelled code can meet. *)
Inductive Exn :=
| FileNotFoundError
| JSONDecodeError
| OSError
| ValueError.

(** What [MEETUPS_FILE] holds.  [Dumped d] is the complete text that
    [json.dump(d, f, indent=2)] writes.  [Cut d k] is that text without its
    last [k+1] characters (nothing at all when the text is shorter): what a
    write that stopped early leaves behind.  The text of a dump is one JSON
    object, closed by its last character, so no [Cut] is JSON.
    [Unparsable raw] is any other text that [json.load] rejects.

    These are the files that the code itself leaves, and the files that do
    not parse.  A file of JSON that parses to something else than a
    document of records with integer ids (put there by hand: no
    ["meetups"] key, an id that is a float or a string, a record without
    its keys) has no constructor: on such a file the handlers raise from
    their subscripts or from [max], and nothing below speaks of it. *)
Inductive Contents :=
| Dumped (d : MeetupsData)
| Cut (d : MeetupsData) (k : nat)
| Unparsable (raw : string).

(** [json.load] on an opened file, for the contents above. *)
Definition json_load (c : Contents) : Exn + MeetupsData :=
  match c with
  | Dumped d => inr d
  | Cut _ _ => inl JSONDecodeError
  | Unparsable _ => inl JSONDecodeError
  end.

(** How the disk behaves during the one write of a call: it works, the
    [open(..., 'w')] raises (the file is untouched), or the file is opened,
    hence truncated, and the writing raises [k+1] characters short of the
    end. *)
Inductive Disk :=
| DiskOk
| OpenFails
| WriteFails (k : nat).

Inductive Mode := ModeR | ModeW.

(** What a call did to its surroundings, in order. *)
Inductive Event :=
| Opened (m : Mode)
| Logged (msg : string) (e : Exn).

(** The state the handlers run in: the file, absent or present, and the
    log (most recent event first). *)
Record World := mkWorld {
  file : option Contents;
  events : list Event
}.

(* ================================================================= *)
(** ** A state monad for the handlers *)

Definition M (A : Type) : Type := World -> A * World.

Definition ret {A} (a : A) : M A := fun w => (a, w).

Definition bind {A B} (m : M A) (k : A -> M B) : M B :=
  fun w => let (a, w') := m w in k a w'.

Declare Scope io_scope.
Delimit Scope io_scope with io.
Notation "x <- m ;; k" := (bind m (fun x => k))
  (at level 61, m at next level, right associativity) : io_scope.
Notation "m ;;; k" := (bind m (fun _ => k))
  (at level 61, right associativity) : io_scope.
Open Scope io_scope.

Definition emit (e : Event) : M unit :=
  fun w => (tt, {| file := file w; events := e :: events w |}).

Definition set_file (c : Contents) : M unit :=
  fun w => (tt, {| file := Some c; events := events w |}).

(** [logger.error(f"...: {e}")]. *)
Definition logger_error (msg : string) (e : Exn) : M unit :=
  emit (Logged msg e).

(** [with open(MEETUPS_FILE, 'r') as f: json.load(f)], exceptions as
    values. *)
Definition open_and_load : M (Exn + MeetupsData) :=
  fun w =>
    match file w with
    | None => (inl FileNotFoundError, w)
    | Some c => (json_load c, {| file := file w; events := Opened ModeR :: events w |})
    end.

(** [with open(MEETUPS_FILE, 'w') as f: json.dump(d, f, indent=2)],
    exceptions as values. *)
Definition open_and_dump (io : Disk) (d : MeetupsData) : M (option Exn) :=
  match io with
  | DiskOk => emit (Opened ModeW) ;;; set_file (Dumped d) ;;; ret None
  | OpenFails => ret (Some OSError)
  | WriteFails k => emit (Opened ModeW) ;;; set_file (Cut d k) ;;; ret (Some OSError)
  end.

(* ================================================================= *)
(** ** Storage: [get_meetups], [save_meetups], [generate_meetup_id] *)

Definition get_meetups : M MeetupsData :=
  r <- open_and_load ;;
  match r with
  | inr d => ret d
  | inl e => logger_error "Error reading meetups file" e ;;; ret default_meetups
  end.

Definition save_meetups (io : Disk) (meetups_data : MeetupsData) : M bool :=
  r <- open_and_dump io meetups_data ;;
  match r with
  | None => ret true
  | Some e => logger_error "Error saving meetups file" e ;;; ret false
  end.

(** Python's [max] on a non-empty list, given as head and tail. *)
Definition py_max (x : Z) (xs : list Z) : Z := fold_left Z.max xs x.

Definition generate_meetup_id : M Z :=
  meetups_data <- get_meetups ;;
  let ids := map id (meetups meetups_data) in
  ret (match ids with
       | [] => 1
       | x :: xs => py_max x xs + 1
       end).

(* ================================================================= *)
(** ** Text: the two patterns, [str.split], [int] *)

(** A Python [str] whose characters the code looks at (the date and the
    time of a creation): the list of its code points. *)
Definition pystr := list Z.

(** The [str] of a text written with characters below 256. *)
Definition of_string (s : string) : pystr :=
  map (fun c => Z.of_nat (nat_of_ascii c)) (list_ascii_of_string s).

Coercion of_string : string >-> pystr.

(** The decimal digits of the Unicode database of the interpreter
    (version 14.0.0, the one of Python 3.11): the characters of category
    Nd come in runs of ten, the digits 0 to 9 of a script in order; this is
    the first code point of each run. *)
Definition DIGIT_RUNS : list Z :=
  [48; 1632; 1776; 1984; 2406; 2534; 2662; 2790; 2918; 3046; 3174; 3302;
   3430; 3558; 3664; 3792; 3872; 4160; 4240; 6112; 6160; 6470; 6608; 6784;
   6800; 6992; 7088; 7232; 7248; 42528; 43216; 43264; 43472; 43504; 43600;
   44016; 65296; 66720; 68912; 69734; 69872; 69942; 70096; 70384; 70736;
   70864; 71248; 71360; 71472; 71904; 72016; 72784; 73040; 73120; 92768;
   92864; 93008; 120782; 120792; 120802; 120812; 120822; 123200; 123632;
   125264; 130032].

(** The runs of digits lie apart: each starts ten or more after the one
    before. *)
Fixpoint runs_apart (l : list Z) : bool :=
  match l with
  | a :: (b :: _) as rest => (a + 10 <=? b) && runs_apart rest
  | _ => true
  end.

(** [Py_UNICODE_TODECIMAL]: the value of a decimal digit, of any script;
    nothing for any other character. *)
Definition decimal_of (c : Z) : option Z :=
  match find (fun zero => (zero <=? c) && (c <=? zero + 9)) DIGIT_RUNS with
  | Some zero => Some (c - zero)
  | None => None
  end.

(** What the class [\d] of a [str] pattern matches, and what [int] takes
    for a digit. *)
Definition is_digit (c : Z) : bool :=
  match decimal_of c with Some _ => true | None => false end.

(** The value of a decimal digit. *)
Definition digit_val (c : Z) : Z :=
  match decimal_of c with Some v => v | None => 0 end.

(** An element of a pattern: [\d] or a literal character. *)
Inductive Item :=
| Dig
| Lit (c : Z).

Definition item_ok (i : Item) (c : Z) : bool :=
  match i with
  | Dig => is_digit c
  | Lit l => c =? l
  end.

(** Consumes the pattern at the start of the text; what is left of the
    text when it matches. *)
Fixpoint match_items (p : list Item) (s : pystr) : option pystr :=
  match p with
  | [] => Some s
  | i :: p' =>
      match s with
      | [] => None
      | c :: s' => if item_ok i c then match_items p' s' else None
      end
  end.

Definition newline : Z := 10.
Definition dash : Z := 45.
Definition colon : Z := 58.

(** [re.compile('^' p '$').match(s)]: without [re.MULTILINE] the [$]
    matches at the end of the text and also just before a newline that
    ends the text. *)
Definition re_match (p : list Item) (s : pystr) : bool :=
  match match_items p s with
  | Some [] => true
  | Some [c] => c =? newline
  | _ => false
  end.

(** [^\d{4}-\d{2}-\d{2}$] *)
Definition date_regex : list Item :=
  repeat Dig 4 ++ [Lit dash] ++ repeat Dig 2 ++ [Lit dash] ++ repeat Dig 2.

(** [^\d{2}:\d{2}$] *)
Definition time_regex : list Item :=
  repeat Dig 2 ++ [Lit colon] ++ repeat Dig 2.

(** [s.split(sep)] for a separator of one character. *)
Fixpoint split (sep : Z) (s : pystr) : list pystr :=
  match s with
  | [] => [[]]
  | c :: s' =>
      if c =? sep then [] :: split sep s'
      else match split sep s' with
           | piece :: pieces => (c :: piece) :: pieces
           | [] => [[c]]
           end
  end.

(** [str.isspace] on characters below 256: what [str.strip] drops at both
    ends of such a text. *)
Definition is_space (c : ascii) : bool :=
  let n := nat_of_ascii c in
  ((9 <=? n)%nat && (n <=? 13)%nat) || ((28 <=? n)%nat && (n <=? 32)%nat)
  || (n =? 133)%nat || (n =? 160)%nat.

Fixpoint lstrip (s : list ascii) : list ascii :=
  match s with
  | c :: s' => if is_space c then lstrip s' else s
  | [] => []
  end.

Definition strip (s : list ascii) : list ascii := rev (lstrip (rev (lstrip s))).

(** The whitespace that [int] drops at both ends: tab to carriage return
    and the blank, and the whitespace of Unicode from 127 on (the
    separators 28 to 31 are whitespace for [str.isspace] but [int] raises
    on them). *)
Definition INT_SPACES : list Z :=
  [9; 10; 11; 12; 13; 32; 133; 160; 5760; 8192; 8193; 8194; 8195; 8196;
   8197; 8198; 8199; 8200; 8201; 8202; 8232; 8233; 8239; 8287; 12288].

Definition int_space (c : Z) : bool := existsb (Z.eqb c) INT_SPACES.

Fixpoint int_lstrip (s : pystr) : pystr :=
  match s with
  | c :: s' => if int_space c then int_lstrip s' else s
  | [] => []
  end.

Definition int_strip (s : pystr) : pystr := rev (int_lstrip (rev (int_lstrip s))).

(** The digits of an [int] literal: one or more digits, of any script,
    single underscores allowed between two digits.  [after_digit] tells
    whether the previous character was a digit. *)
Fixpoint int_digits (acc : Z) (after_digit : bool) (s : pystr) : option Z :=
  match s with
  | [] => if after_digit then Some acc else None
  | c :: s' =>
      if is_digit c then int_digits (10 * acc + digit_val c) true s'
      else if (c =? 95) && after_digit then int_digits acc false s'
      else None
  end.

(** [int(s)] in base ten: [ValueError] unless, surrounding whitespace
    apart, [s] is an optional sign ([-] is 45, [+] is 43) and the digits of
    a literal. *)
Definition py_int (s : pystr) : Exn + Z :=
  let body := int_strip s in
  let signed :=
    match body with
    | c :: rest =>
        if c =? 45 then option_map Z.opp (int_digits 0 false rest)
        else if c =? 43 then int_digits 0 false rest
        else int_digits 0 false body
    | [] => None
    end in
  match signed with
  | Some n => inr n
  | None => inl ValueError
  end.

(** [map(int, pieces)], forced by the unpacking: the first exception
    wins. *)
Fixpoint map_int (pieces : list pystr) : Exn + list Z :=
  match pieces with
  | [] => inr []
  | p :: ps =>
      match py_int p with
      | inl e => inl e
      | inr n =>
          match map_int ps with
          | inl e => inl e
          | inr ns => inr (n :: ns)
          end
      end
  end.

(* ================================================================= *)
(** ** [datetime.datetime] *)

Definition MINYEAR : Z := 1.
Definition MAXYEAR : Z := 9999.

(** [_DAYS_IN_MONTH], with its placeholder at index 0. *)
Definition DAYS_IN_MONTH : list Z :=
  [-1; 31; 28; 31; 30; 31; 30; 31; 31; 30; 31; 30; 31].

Definition is_leap (year : Z) : bool :=
  (year mod 4 =? 0) && (negb (year mod 100 =? 0) || (year mod 400 =? 0)).

Definition days_in_month (year month : Z) : Z :=
  if (month =? 2) && is_leap year then 29
  else nth (Z.to_nat month) DAYS_IN_MONTH 0.

(** A [datetime] with [tzinfo=timezone.utc], seconds and microseconds
    zero. *)
Record DateTime := mkDateTime {
  year : Z; month : Z; day : Z; hour : Z; minute : Z
}.

(** The constructor, with the range checks of [_check_date_fields] and
    [_check_time_fields]. *)
Definition datetime (y m d h mi : Z) : Exn + DateTime :=
  if negb ((MINYEAR <=? y) && (y <=? MAXYEAR)) then inl ValueError
  else if negb ((1 <=? m) && (m <=? 12)) then inl ValueError
  else if negb ((1 <=? d) && (d <=? days_in_month y m)) then inl ValueError
  else if negb ((0 <=? h) && (h <=? 23)) then inl ValueError
  else if negb ((0 <=? mi) && (mi <=? 59)) then inl ValueError
  else inr (mkDateTime y m d h mi).

Definition digit_char (n : Z) : ascii := ascii_of_nat (Z.to_nat (48 + n mod 10)).

(** The last [w] decimal digits of [n], most significant first: the text
    of [format(n, '0wd')] for [0 <= n < 10^w], which the constructor's
    checks give for every field below. *)
Fixpoint zfill (w : nat) (n : Z) : string :=
  match w with
  | O => EmptyString
  | S w' => (zfill w' (n / 10) ++ String (digit_char n) EmptyString)%string
  end.

(** [date.isoformat()] of an aware UTC value without seconds:
    [YYYY-MM-DDTHH:MM:00+00:00]. *)
Definition isoformat (dt : DateTime) : string :=
  (zfill 4 (year dt) ++ "-" ++ zfill 2 (month dt) ++ "-" ++ zfill 2 (day dt)
   ++ "T" ++ zfill 2 (hour dt) ++ ":" ++ zfill 2 (minute dt) ++ ":00+00:00")%string.

(** The [try] block of [crear_quedada]: split, convert, unpack, build.
    Unpacking a list of the wrong length is a [ValueError] too. *)
Definition parse_fecha_hora (fecha hora : pystr) : Exn + DateTime :=
  match map_int (split dash fecha) with
  | inl e => inl e
  | inr [y; m; d] =>
      match map_int (split colon hora) with
      | inl e => inl e
      | inr [h; mi] => datetime y m d h mi
      | inr _ => inl ValueError
      end
  | inr _ => inl ValueError
  end.

(* ================================================================= *)
(** ** The command handlers *)

(** What a handler needs of its [interaction]: the permission bit
    [interaction.user.guild_permissions.manage_messages]. *)
Record Interaction := mkInteraction { manage_messages : bool }.

(** What a handler has to send when it is done with the store.  The fixed
    (ephemeral) texts are those of the code.  The embeds carry the records
    they are built from: building and sending them is the platform's part
    and is not modelled.  [ListaQuedadas ms] stands for the rest of
    [quedadas] on the loaded records [ms], from the [discord.Embed] on: its
    loop reads each stored date with [fromisoformat] and adds a button for
    each record to one [View], so it raises, and nothing is sent, on a
    stored date that [fromisoformat] does not read and from the 26th
    record on.  Nothing below rests on what is sent in that case; the
    statements about [/quedadas] are about the store and about the reply
    on a load without records. *)
Inductive Reply :=
| NoHayQuedadas                     (* "No hay ninguna quedada pendiente actualmente." *)
| ListaQuedadas (ms : list Meetup)  (* embed "Quedadas": a field and a button per record *)
| FormatoFecha                      (* "El formato de fecha debe ser YYYY-MM-DD ..." *)
| FormatoHora                       (* "El formato de hora debe ser HH:MM ..." *)
| FechaHoraNoValidas                (* "La fecha y hora proporcionadas no son validas" *)
| QuedadaCreada (m : Meetup)        (* embed "Nueva Quedada Creada", button join_meetup_<id> *)
| ErrorAlCrear                      (* "Ha ocurrido un error al crear la quedada" *)
| SinPermisos                       (* "No tienes permisos para eliminar quedadas" *)
| NoEncontrada (id_quedada : Z)     (* "No se encontro ninguna quedada con ID <id>" *)
| QuedadaEliminada (m : Meetup)     (* embed "Quedada Eliminada" *)
| ErrorAlEliminar.                  (* "Ha ocurrido un error al eliminar la quedada" *)

(** [/quedadas], up to the test on the loaded list: the load, the fixed
    text when there is no record, and otherwise the records that go into
    the rendering loop (see [ListaQuedadas]). *)
Definition quedadas : M Reply :=
  meetups_data <- get_meetups ;;
  match meetups meetups_data with
  | [] => ret NoHayQuedadas
  | ms => ret (ListaQuedadas ms)
  end.

(** [/crear-quedada] *)
Definition crear_quedada (io : Disk)
    (titulo descripcion : string) (fecha hora : pystr) (lugar estado : string)
  : M Reply :=
  if negb (re_match date_regex fecha) then ret FormatoFecha
  else if negb (re_match time_regex hora) then ret FormatoHora
  else
    match parse_fecha_hora fecha hora with
    | inl _ => ret FechaHoraNoValidas
    | inr date =>
        new_id <- generate_meetup_id ;;
        let new_meetup :=
          {| id := new_id;
             title := titulo;
             description := descripcion;
             date := isoformat date;
             location := lugar;
             status := estado;
             participants := [] |} in
        meetups_data <- get_meetups ;;
        let meetups_data := {| meetups := meetups meetups_data ++ [new_meetup] |} in
        saved <- save_meetups io meetups_data ;;
        if saved : bool then ret (QuedadaCreada new_meetup) else ret ErrorAlCrear
    end.

(** The loop with [enumerate] and [break]: the index and the record of the
    first element whose id is the one looked for. *)
Fixpoint find_index (id_quedada : Z) (i : nat) (ms : list Meetup) : option (nat * Meetup) :=
  match ms with
  | [] => None
  | meetup :: rest =>
      if id meetup =? id_quedada then Some (i, meetup)
      else find_index id_quedada (S i) rest
  end.

(** [del l[i]] for an index in range. *)
Fixpoint del_at {A} (i : nat) (l : list A) : list A :=
  match l, i with
  | [], _ => []
  | _ :: rest, O => rest
  | x :: rest, S i' => x :: del_at i' rest
  end.

(** [/eliminar-quedada] *)
Definition eliminar_quedada (io : Disk) (interaction : Interaction)
    (id_quedada : Z) : M Reply :=
  if negb (manage_messages interaction) then ret SinPermisos
  else
    meetups_data <- get_meetups ;;
    match find_index id_quedada 0 (meetups meetups_data) with
    | None => ret (NoEncontrada id_quedada)
    | Some (meetup_index, meetup) =>
        let meetups_data := {| meetups := del_at meetup_index (meetups meetups_data) |} in
        saved <- save_meetups io meetups_data ;;
        if saved : bool then ret (QuedadaEliminada meetup) else ret ErrorAlEliminar
    end.

(* ================================================================= *)
(** ** Running commands one at a time *)

Inductive Command :=
| Quedadas
| Crear (io : Disk) (titulo descripcion : string) (fecha hora : pystr)
        (lugar estado : string)
| Eliminar (io : Disk) (interaction : Interaction) (id_quedada : Z).

Definition run (c : Command) : M Reply :=
  match c with
  | Quedadas => quedadas
  | Crear io t d f h l e => crear_quedada io t d f h l e
  | Eliminar io i n => eliminar_quedada io i n
  end.

Fixpoint run_all (cs : list Command) : M (list Reply) :=
  match cs with
  | [] => ret []
  | c :: cs' =>
      r <- run c ;;
      rs <- run_all cs' ;;
      ret (r :: rs)
  end.

(** The store as the module leaves it at import when there was none:
    [default_meetups] written out. *)
Definition initial_world : World :=
  {| file := Some (Dumped default_meetups); events := [] |}.

(** A caller with the permission. *)
Definition moderator : Interaction := {| manage_messages := true |}.

(** A caller without it. *)
Definition visitor : Interaction := {| manage_messages := false |}.

(** A creation that passes every check, on a disk that works. *)
Definition picnic : Command :=
  Crear DiskOk "Picnic" "Bring food" "2024-06-01" "18:00" "Park" "activo".

(** The registry a call finds: the list that [get_meetups] hands it. *)
Definition registry (w : World) : list Meetup := meetups (fst (get_meetups w)).

Definition ids_of (ms : list Meetup) : list Z := map id ms.

(** The ids that the embeds of successful creations show, in order. *)
Fixpoint created_ids (rs : list Reply) : list Z :=
  match rs with
  | [] => []
  | QuedadaCreada m :: rs' => id m :: created_ids rs'
  | _ :: rs' => created_ids rs'
  end.

(* ================================================================= *)
(** ** Derived definitions used in the statements *)

(** The id that [generate_meetup_id] computes from a registry. *)
Definition next_id (ms : list Meetup) : Z :=
  match ids_of ms with
  | [] => 1
  | x :: xs => py_max x xs + 1
  end.

(** What [save_meetups] answers and what it leaves in the file. *)
Definition saved_ok (io : Disk) : bool :=
  match io with DiskOk => true | _ => false end.

Definition file_after_save (io : Disk) (d : MeetupsData) (before : option Contents)
  : option Contents :=
  match io with
  | DiskOk => Some (Dumped d)
  | OpenFails => before
  | WriteFails k => Some (Cut d k)
  end.

(** The checks that [crear_quedada] makes before it touches the store:
    the reply of the check that fails, or the date that was built. *)
Definition check_fecha_hora (fecha hora : pystr) : Reply + DateTime :=
  if negb (re_match date_regex fecha) then inl FormatoFecha
  else if negb (re_match time_regex hora) then inl FormatoHora
  else match parse_fecha_hora fecha hora with
       | inl _ => inl FechaHoraNoValidas
       | inr dt => inr dt
       end.

(** The three replies that turn a creation down for its input. *)
Definition is_rejection (r : Reply) : bool :=
  match r with
  | FormatoFecha | FormatoHora | FechaHoraNoValidas => true
  | _ => false
  end.

(** The record that an accepted creation builds. *)
Definition new_meetup_of (w : World) (t de l e : string) (dt : DateTime) : Meetup :=
  {| id := next_id (registry w);
     title := t;
     description := de;
     date := isoformat dt;
     location := l;
     status := e;
     participants := [] |}.

(** How many times the file was opened for writing. *)
Definition writes (evs : list Event) : nat :=
  List.length (filter (fun ev => match ev with Opened ModeW => true | _ => false end) evs).

(** [top] is the greatest element of [l]. *)
Definition is_max (top : Z) (l : list Z) : Prop :=
  In top l /\ forall x, In x l -> x <= top.

(** The invariant of the registry: ids grow along the stored order and
    are positive. *)
Definition ids_increasing (ms : list Meetup) : Prop :=
  StronglySorted Z.lt (ids_of ms).

Definition ids_positive (ms : list Meetup) : Prop :=
  Forall (fun n => 0 < n) (ids_of ms).

(** A command that neither deletes nor breaks off a write: a listing, or a
    creation on a disk that works or refuses to open. *)
Definition steady (c : Command) : bool :=
  match c with
  | Quedadas => true
  | Crear (WriteFails _) _ _ _ _ _ _ => false
  | Crear _ _ _ _ _ _ _ => true
  | Eliminar _ _ _ => false
  end.

(* ================================================================= *)
(** ** Calendar dates and the texts that denote them *)

(** The value that [int] gives to a run of digits, most significant
    first. *)
Definition decimal (cs : pystr) : Z :=
  fold_left (fun acc c => 10 * acc + digit_val c) cs 0.

(** [c] is the decimal digit of value [v] in some script: the character
    [v] places after the zero of a run of digits. *)
Definition digit_of (c v : Z) : Prop :=
  0 <= v <= 9 /\ exists zero, In zero DIGIT_RUNS /\ c = zero + v.

(** The digits [cs], most significant first, write the number [n]. *)
Inductive reads_as : pystr -> Z -> Prop :=
| reads_empty : reads_as [] 0
| reads_digit cs n c v :
    reads_as cs n -> digit_of c v -> reads_as (cs ++ [c]) (10 * n + v).

(** [cs] is [width] decimal digits that read [n]. *)
Definition numeral (width : nat) (cs : pystr) (n : Z) : Prop :=
  List.length cs = width /\ reads_as cs n.

(** Nothing, or the newline that ends a line. *)
Definition line_end (cs : pystr) : Prop := cs = [] \/ cs = [newline].

(** [fecha] is [YYYY-MM-DD] for the year, month and day given. *)
Definition fecha_denotes (fecha : pystr) (y m d : Z) : Prop :=
  exists ys ms ds tl,
    fecha = ys ++ dash :: ms ++ dash :: ds ++ tl /\
    numeral 4 ys y /\ numeral 2 ms m /\ numeral 2 ds d /\ line_end tl.

(** [hora] is [HH:MM] for the hour and minute given. *)
Definition hora_denotes (hora : pystr) (h mi : Z) : Prop :=
  exists hs ms tl,
    hora = hs ++ colon :: ms ++ tl /\
    numeral 2 hs h /\ numeral 2 ms mi /\ line_end tl.

(** Leap years of the Gregorian calendar. *)
Definition leap_year (y : Z) : Prop :=
  (y mod 4 = 0 /\ y mod 100 <> 0) \/ y mod 400 = 0.

(** Day [d] exists in month [m] of year [y]. *)
Definition day_of_month (y m d : Z) : Prop :=
  1 <= d /\
  ((In m [1; 3; 5; 7; 8; 10; 12] /\ d <= 31) \/
   (In m [4; 6; 9; 11] /\ d <= 30) \/
   (m = 2 /\ d <= 28) \/
   (m = 2 /\ d = 29 /\ leap_year y)).

(** A date of the calendar, years 0001 to 9999 (it has no year 0), with a
    time of day. *)
Definition calendar_datetime (dt : DateTime) : Prop :=
  1 <= year dt <= 9999 /\
  day_of_month (year dt) (month dt) (day dt) /\
  0 <= hour dt <= 23 /\
  0 <= minute dt <= 59.

(** The two texts of a creation denote the date and time [dt], which
    exists. *)
Definition denotes_datetime (fecha hora : pystr) (dt : DateTime) : Prop :=
  fecha_denotes fecha (year dt) (month dt) (day dt) /\
  hora_denotes hora (hour dt) (minute dt) /\
  calendar_datetime dt.

(** The texts [YYYY-MM-DD] and [HH:MM] of a date and time. *)
Definition fecha_text (dt : DateTime) : string :=
  (zfill 4 (year dt) ++ "-" ++ zfill 2 (month dt) ++ "-" ++ zfill 2 (day dt))%string.

Definition hora_text (dt : DateTime) : string :=
  (zfill 2 (hour dt) ++ ":" ++ zfill 2 (minute dt))%string.

(* ================================================================= *)
(** ** Statements of the specification that the code is compared with *)

(** The store is there and [json.load] raises on it. *)
Definition unparsable_store (w : World) : Prop :=
  exists c e, file w = Some c /\ json_load c = inl e.

(** Storage, load: for a store that cannot be parsed the load hands no
    empty registry to its caller in place of the contents. *)
Definition load_reports_corruption (w : World) : Prop :=
  unparsable_store w -> fst (get_meetups w) <> default_meetups.

(** [s.strip()]. *)
Definition trimmed (s : string) : string :=
  string_of_list_ascii (strip (list_ascii_of_string s)).

(** Nothing is left of [s] once trimmed. *)
Definition blank (s : string) : Prop := trimmed s = "".

(** The values of [estado] that the command declares with
    [app_commands.choices]. *)
Definition estado_choices : list string := ["activo"; "pendiente"].

(** Create, validation: a title or a description that is blank is turned
    down and the store stays as it is. *)
Definition blank_text_rejected (io : Disk)
    (titulo descripcion fecha hora lugar estado : string) (w : World) : Prop :=
  blank titulo \/ blank descripcion ->
  let out := crear_quedada io titulo descripcion fecha hora lugar estado w in
  is_rejection (fst out) = true /\ file (snd out) = file w.

(** Create, validation: a status that is not one of the two is turned down
    and a load afterwards finds the registry as it was. *)
Definition unknown_status_rejected (io : Disk)
    (titulo descripcion fecha hora lugar estado : string) (w : World) : Prop :=
  ~ In estado estado_choices ->
  let out := crear_quedada io titulo descripcion fecha hora lugar estado w in
  is_rejection (fst out) = true /\ registry (snd out) = registry w.

(** Storage, save: after a save the store is the previous one or the new
    one in full, for the file and for what a load then sees. *)
Definition save_all_or_nothing (io : Disk) (d : MeetupsData) (w : World) : Prop :=
  let w' := snd (save_meetups io d w) in
  (file w' = file w \/ file w' = Some (Dumped d)) /\
  (registry w' = registry w \/ registry w' = meetups d).

(** Allocator: an id deleted while smaller than the greatest id is
    returned by no creation that comes later. *)
Definition smaller_deleted_never_reassigned
    (w : World) (d : Z) (later : list Command) : Prop :=
  In d (ids_of (registry w)) ->
  (exists top, is_max top (ids_of (registry w)) /\ d < top) ->
  ~ In d (created_ids (fst (run_all (Eliminar DiskOk moderator d :: later) w))).

(** Allocator: an id deleted while it is the greatest id is the one that
    the next creation returns. *)
Definition deleted_maximum_reassigned (w : World) (d : Z) : Prop :=
  is_max d (ids_of (registry w)) ->
  created_ids (fst (run_all [Eliminar DiskOk moderator d; picnic] w)) = [d].

(* ================================================================= *)
(** ** What the embeds show of a record *)

(** [str(n)] for an [int]. *)
Definition py_str (n : Z) : string := NilEmpty.string_of_int (Z.to_int n).

(** The [custom_id] of the button of a record,
    [f"join_meetup_{meetup['id']}"]. *)
Definition join_custom_id (meetup : Meetup) : string :=
  ("join_meetup_" ++ py_str (id meetup))%string.

(** The [custom_id]s of the buttons that [/quedadas] adds to its view, one
    for each record, in the stored order. *)
Definition button_ids (ms : list Meetup) : list string := map join_custom_id ms.

(** [participants_text] in [/quedadas]: the names joined by a comma and a
    blank, or the word for none. *)
Definition participants_text (meetup : Meetup) : string :=
  match participants meetup with
  | [] => "Ninguno"
  | names => String.concat ", " names
  end.

(** A record as [crear_quedada] writes them: nobody has joined and the date
    is the text of a date and time that exists. *)
Definition written_by_crear (meetup : Meetup) : Prop :=
  participants meetup = [] /\
  exists dt, calendar_datetime dt /\ date meetup = isoformat dt.

(** The texts pass the checks of [crear_quedada]. *)
Definition passes_checks (fecha hora : pystr) : bool :=
  match check_fecha_hora fecha hora with
  | inr _ => true
  | inl _ => false
  end.

(** A creation that passes the checks, on a disk that works. *)
Definition sound_create (c : Command) : bool :=
  match c with
  | Crear DiskOk _ _ fecha hora _ _ => passes_checks fecha hora
  | _ => false
  end.

(** The store cannot be read: there is no file, or it does not parse. *)
Definition unreadable_store (w : World) : Prop :=
  file w = None \/ unparsable_store w.

(** The ASCII digit of the same value as a digit of any script; other
    characters as they are. *)
Definition as_ascii_digit (c : Z) : Z :=
  match decimal_of c with
  | Some v => 48 + v
  | None => c
  end.


(* ================================================================= *)
(** ** Storage and handler lemmas *)

Lemma get_meetups_file w : file (snd (get_meetups w)) = file w.
Proof.
  unfold get_meetups, bind, open_and_load.
  destruct (file w) as [c|] eqn:E; [destruct (json_load c)|]; cbn; auto.
Qed.

Lemma registry_file w w' : file w = file w' -> registry w = registry w'.
Proof.
  unfold registry, get_meetups, bind, open_and_load. intros <-.
  destruct (file w) as [c|]; [destruct (json_load c)|]; reflexivity.
Qed.

Lemma registry_dumped w d : file w = Some (Dumped d) -> registry w = meetups d.
Proof.
  unfold registry, get_meetups, bind, open_and_load. intros ->. reflexivity.
Qed.

Lemma registry_cut w d k : file w = Some (Cut d k) -> registry w = [].
Proof.
  unfold registry, get_meetups, bind, open_and_load. intros ->. reflexivity.
Qed.

Lemma generate_meetup_id_eq w :
  generate_meetup_id w = (next_id (registry w), snd (get_meetups w)).
Proof.
  unfold generate_meetup_id, bind, registry, next_id, ids_of, ret.
  destruct (get_meetups w) as [d w']. reflexivity.
Qed.

Lemma check_fecha_hora_rejection fecha hora r :
  check_fecha_hora fecha hora = inl r -> is_rejection r = true.
Proof.
  unfold check_fecha_hora.
  destruct (re_match date_regex fecha); cbn [negb].
  2: { intros H; inversion H; reflexivity. }
  destruct (re_match time_regex hora); cbn [negb].
  2: { intros H; inversion H; reflexivity. }
  destruct (parse_fecha_hora fecha hora); intros H; inversion H. reflexivity.
Qed.

Lemma crear_quedada_rejected io t de f h l e w r :
  check_fecha_hora f h = inl r ->
  crear_quedada io t de f h l e w = (r, w).
Proof.
  unfold check_fecha_hora, crear_quedada.
  destruct (re_match date_regex f); cbn [negb].
  2: { intros H; inversion H; reflexivity. }
  destruct (re_match time_regex h); cbn [negb].
  2: { intros H; inversion H; reflexivity. }
  destruct (parse_fecha_hora f h); intros H; inversion H. reflexivity.
Qed.

Lemma save_meetups_run io d w :
  exists w', save_meetups io d w = (saved_ok io, w') /\
             file w' = file_after_save io d (file w).
Proof. destruct io; eexists; split; reflexivity. Qed.

Lemma get_meetups_run w :
  exists w', get_meetups w = (mkData (registry w), w') /\ file w' = file w.
Proof.
  exists (snd (get_meetups w)). split; [|apply get_meetups_file].
  unfold registry. destruct (get_meetups w) as [[ms] w']. reflexivity.
Qed.

Lemma crear_quedada_accepted io t de f h l e w dt :
  check_fecha_hora f h = inr dt ->
  exists w',
    crear_quedada io t de f h l e w =
      (if saved_ok io then QuedadaCreada (new_meetup_of w t de l e dt) else ErrorAlCrear, w')
    /\ file w' = file_after_save io
                   (mkData (registry w ++ [new_meetup_of w t de l e dt])) (file w).
Proof.
  unfold check_fecha_hora, crear_quedada.
  destruct (re_match date_regex f); cbn [negb]; [|discriminate].
  destruct (re_match time_regex h); cbn [negb]; [|discriminate].
  destruct (parse_fecha_hora f h) as [|dt']; intros H; inversion H; subst dt'; clear H.
  unfold bind. rewrite generate_meetup_id_eq.
  destruct (get_meetups_run w) as (w1 & G1 & F1). rewrite G1. cbn [snd].
  destruct (get_meetups_run w1) as (w2 & G2 & F2). rewrite G2. cbn [meetups].
  rewrite (registry_file w1 w F1).
  fold (new_meetup_of w t de l e dt).
  destruct (save_meetups_run io (mkData (registry w ++ [new_meetup_of w t de l e dt])) w2)
    as (w3 & S & F3).
  rewrite S. exists w3. rewrite F3, F2, F1.
  destruct io; cbn; auto.
Qed.

Lemma find_index_none n i ms :
  find_index n i ms = None <-> ~ In n (ids_of ms).
Proof.
  revert i. induction ms as [|m ms IH]; intros i; cbn.
  - tauto.
  - destruct (Z.eqb_spec (id m) n) as [E|E].
    + split; [discriminate|]. intros H. exfalso. apply H. now left.
    + rewrite IH. tauto.
Qed.

Lemma find_index_some n i l1 m l2 :
  id m = n -> ~ In n (ids_of l1) ->
  find_index n i (l1 ++ m :: l2) = Some ((i + List.length l1)%nat, m).
Proof.
  intros Hm. revert i. induction l1 as [|x l1 IH]; intros i Hn; cbn.
  - rewrite Hm, Z.eqb_refl. now rewrite Nat.add_0_r.
  - destruct (Z.eqb_spec (id x) n) as [E|E].
    + exfalso. apply Hn. now left.
    + rewrite IH by (intros H; apply Hn; now right).
      now rewrite Nat.add_succ_r.
Qed.

Lemma del_at_middle {A} (l1 : list A) x l2 : del_at (List.length l1) (l1 ++ x :: l2) = l1 ++ l2.
Proof. induction l1 as [|y l1 IH]; cbn; [reflexivity|now rewrite IH]. Qed.

(** Where the first record of a given id sits. *)
Lemma first_occurrence n ms :
  In n (ids_of ms) ->
  exists l1 m l2, ms = l1 ++ m :: l2 /\ id m = n /\ ~ In n (ids_of l1).
Proof.
  induction ms as [|x ms IH]; cbn; [tauto|].
  intros H. destruct (Z.eq_dec (id x) n) as [E|E].
  - exists [], x, ms. cbn. tauto.
  - destruct H as [H|H]; [contradiction|].
    destruct (IH H) as (l1 & m & l2 & -> & Hm & Hn).
    exists (x :: l1), m, l2. cbn. repeat split; auto. tauto.
Qed.

Lemma eliminar_quedada_denied io i n w :
  manage_messages i = false -> eliminar_quedada io i n w = (SinPermisos, w).
Proof. unfold eliminar_quedada. now intros ->. Qed.

Lemma eliminar_quedada_not_found io i n w :
  manage_messages i = true -> ~ In n (ids_of (registry w)) ->
  eliminar_quedada io i n w = (NoEncontrada n, snd (get_meetups w)).
Proof.
  intros P H. unfold eliminar_quedada. rewrite P. cbn [negb].
  unfold bind. destruct (get_meetups_run w) as (w1 & G & F). rewrite G. cbn [meetups snd].
  apply find_index_none with (i := 0%nat) in H. now rewrite H.
Qed.

Lemma eliminar_quedada_found io i n w l1 m l2 :
  manage_messages i = true ->
  registry w = l1 ++ m :: l2 -> id m = n -> ~ In n (ids_of l1) ->
  exists w',
    eliminar_quedada io i n w =
      (if saved_ok io then QuedadaEliminada m else ErrorAlEliminar, w')
    /\ file w' = file_after_save io (mkData (l1 ++ l2)) (file w).
Proof.
  intros P R Hm Hn. unfold eliminar_quedada. rewrite P. cbn [negb].
  unfold bind. destruct (get_meetups_run w) as (w1 & G & F). rewrite G. cbn [meetups].
  rewrite R, (find_index_some n 0 l1 m l2 Hm Hn). cbn [Nat.add].
  rewrite del_at_middle.
  destruct (save_meetups_run io (mkData (l1 ++ l2)) w1) as (w2 & S & F2).
  rewrite S. exists w2. rewrite F2, F. destruct io; cbn; auto.
Qed.

Lemma quedadas_run w :
  exists w',
    quedadas w = (match registry w with [] => NoHayQuedadas | ms => ListaQuedadas ms end, w')
    /\ file w' = file w.
Proof.
  unfold quedadas, bind. destruct (get_meetups_run w) as (w1 & G & F). rewrite G.
  cbn [meetups]. exists w1. destruct (registry w); auto.
Qed.

(* ================================================================= *)
(** ** Reading the date and the time *)

Lemma runs_apart_head a l :
  runs_apart (a :: l) = true -> forall z, In z l -> a + 10 <= z.
Proof.
  revert a. induction l as [|b l IH]; intros a H z Hz; [destruct Hz|].
  cbn [runs_apart] in H. apply andb_true_iff in H as [H1 H2]. apply Z.leb_le in H1.
  destruct Hz as [<-|Hz]; [exact H1|].
  specialize (IH b H2 z Hz). lia.
Qed.

Lemma find_run l : runs_apart l = true ->
  forall zero c, In zero l -> zero <= c <= zero + 9 ->
  find (fun z => (z <=? c) && (c <=? z + 9)) l = Some zero.
Proof.
  induction l as [|a l IH]; intros H zero c Hin Hc; [destruct Hin|].
  cbn [find]. destruct Hin as [->|Hin].
  - replace ((zero <=? c) && (c <=? zero + 9)) with true; [reflexivity|].
    symmetry. apply andb_true_iff. split; apply Z.leb_le; lia.
  - pose proof (runs_apart_head a l H zero Hin) as G.
    replace ((a <=? c) && (c <=? a + 9)) with false.
    + apply IH; auto. destruct l; [destruct Hin|].
      cbn [runs_apart] in H. now apply andb_true_iff in H as [_ H].
    + symmetry. apply andb_false_iff. right. apply Z.leb_gt. lia.
Qed.

(** [decimal_of] finds the value of a digit of any script, and of nothing
    else. *)
Lemma decimal_of_digit c v : decimal_of c = Some v <-> digit_of c v.
Proof.
  unfold decimal_of, digit_of. split.
  - destruct (find _ DIGIT_RUNS) as [zero|] eqn:F; [|discriminate].
    intros H. inversion H; subst v; clear H.
    apply find_some in F as [I T]. apply andb_true_iff in T as [T1 T2].
    apply Z.leb_le in T1. apply Z.leb_le in T2.
    split; [lia|]. exists zero. split; [exact I|lia].
  - intros (V & zero & I & ->).
    rewrite (find_run DIGIT_RUNS eq_refl zero (zero + v) I) by lia.
    f_equal. lia.
Qed.

Lemma is_digit_of c : is_digit c = true <-> exists v, digit_of c v.
Proof.
  unfold is_digit. split.
  - destruct (decimal_of c) as [v|] eqn:E; [|discriminate].
    intros _. exists v. now apply decimal_of_digit.
  - intros [v H]. apply decimal_of_digit in H. now rewrite H.
Qed.

Lemma digit_val_of c v : digit_of c v -> is_digit c = true /\ digit_val c = v.
Proof.
  intros H. apply decimal_of_digit in H. unfold is_digit, digit_val. now rewrite H.
Qed.

Lemma digit_val_range c : is_digit c = true -> 0 <= digit_val c <= 9.
Proof.
  intros H. apply is_digit_of in H as [v H].
  destruct (digit_val_of c v H) as [_ ->]. apply H.
Qed.

(** The digits 0 to 9 of ASCII. *)
Lemma ascii_digit k : 0 <= k <= 9 -> is_digit (48 + k) = true /\ digit_val (48 + k) = k.
Proof.
  intros K. apply digit_val_of. split; [exact K|].
  exists 48. split; [now left|reflexivity].
Qed.

(** Below 128 there is no other digit. *)
Lemma digit_below_128 c : is_digit c = true -> c < 128 -> 48 <= c <= 57 /\ digit_val c = c - 48.
Proof.
  intros D L. apply is_digit_of in D as (v & V & zero & I & ->).
  assert (zero = 48).
  { cbn in I. repeat (destruct I as [I|I]; [lia|]). destruct I. }
  subst zero. split; [lia|].
  destruct (ascii_digit v V) as [_ ->]. lia.
Qed.

Lemma digit_not_char c x : is_digit c = true -> is_digit x = false -> (c =? x) = false.
Proof.
  intros H1 H2. destruct (Z.eqb_spec c x) as [->|]; [congruence|reflexivity].
Qed.

Lemma digit_not_space c : is_digit c = true -> int_space c = false.
Proof.
  intros D. destruct (int_space c) eqn:S; [|reflexivity].
  unfold int_space in S. apply existsb_exists in S as (x & I & E).
  apply Z.eqb_eq in E. subst x.
  cbn in I. repeat (destruct I as [<-|I]; [vm_compute in D; discriminate D|]).
  destruct I.
Qed.

Lemma decimal_snoc cs c : decimal (cs ++ [c]) = 10 * decimal cs + digit_val c.
Proof. unfold decimal. now rewrite fold_left_app. Qed.

(** The digits that write a number are those that [int] reads as it. *)
Lemma reads_as_decimal cs n :
  reads_as cs n <-> forallb is_digit cs = true /\ decimal cs = n.
Proof.
  split.
  - induction 1 as [|cs n c v R [IH1 IH2] D]; [split; reflexivity|].
    destruct (digit_val_of c v D) as [D1 D2].
    rewrite forallb_app, decimal_snoc, IH1, IH2, D2. cbn. now rewrite D1.
  - revert n. induction cs as [|c cs IH] using rev_ind; intros n [F V].
    + cbn in V. subst n. constructor.
    + rewrite forallb_app in F. apply andb_true_iff in F as [F1 F2].
      cbn in F2. rewrite andb_true_r in F2.
      rewrite decimal_snoc in V. subst n.
      apply is_digit_of in F2 as [v Dv].
      destruct (digit_val_of c v Dv) as [_ ->].
      constructor; [now apply IH|exact Dv].
Qed.

Lemma int_digits_all cs : forall acc after,
  forallb is_digit cs = true -> cs <> [] \/ after = true ->
  int_digits acc after cs = Some (fold_left (fun a c => 10 * a + digit_val c) cs acc).
Proof.
  induction cs as [|c cs IH]; intros acc after D N; cbn.
  - destruct N as [N| ->]; [contradiction|reflexivity].
  - cbn in D. apply andb_true_iff in D as [D1 D2]. rewrite D1.
    apply IH; auto.
Qed.

Lemma lstrip_digit c cs : is_digit c = true -> int_lstrip (c :: cs) = c :: cs.
Proof. intros H. cbn [int_lstrip]. now rewrite (digit_not_space c H). Qed.

Lemma strip_digits cs tl :
  cs <> [] -> forallb is_digit cs = true -> line_end tl -> int_strip (cs ++ tl) = cs.
Proof.
  intros N D T. unfold int_strip.
  assert (L1 : int_lstrip (cs ++ tl) = cs ++ tl).
  { destruct cs as [|c cs]; [contradiction|]. cbn in D.
    apply andb_true_iff in D as [D _]. cbn [app]. now apply lstrip_digit. }
  rewrite L1, rev_app_distr.
  assert (L2 : int_lstrip (rev cs) = rev cs).
  { destruct (rev cs) as [|c r] eqn:E; [reflexivity|].
    apply lstrip_digit. rewrite forallb_forall in D. apply D.
    apply in_rev. rewrite E. now left. }
  destruct T as [->| ->]; cbn [rev app int_lstrip].
  - rewrite L2. apply rev_involutive.
  - replace (int_space newline) with true by reflexivity.
    rewrite L2. apply rev_involutive.
Qed.

(** [int] on digits, a newline after them or not. *)
Lemma py_int_digits cs tl :
  cs <> [] -> forallb is_digit cs = true -> line_end tl ->
  py_int (cs ++ tl) = inr (decimal cs).
Proof.
  intros N D T. unfold py_int.
  rewrite (strip_digits cs tl N D T).
  destruct cs as [|c cs]; [contradiction|].
  pose proof D as D'. cbn in D'. apply andb_true_iff in D' as [Dc _].
  rewrite (digit_not_char c 45 Dc), (digit_not_char c 43 Dc) by reflexivity.
  unfold decimal. now rewrite int_digits_all by auto.
Qed.

Lemma match_items_digits n p : forall cs rest,
  List.length cs = n -> forallb is_digit cs = true ->
  match_items (repeat Dig n ++ p) (cs ++ rest) = match_items p rest.
Proof.
  induction n as [|n IH]; intros [|c cs] rest L D; try discriminate; [reflexivity|].
  cbn in D. apply andb_true_iff in D as [D1 D2].
  cbn. rewrite D1. apply IH; auto.
Qed.

Lemma match_items_lit c p rest :
  match_items (Lit c :: p) (c :: rest) = match_items p rest.
Proof. cbn. now rewrite Z.eqb_refl. Qed.

Lemma match_items_digits_inv n p : forall s r,
  match_items (repeat Dig n ++ p) s = Some r ->
  exists cs s',
    s = cs ++ s' /\
    List.length cs = n /\ forallb is_digit cs = true /\
    match_items p s' = Some r.
Proof.
  induction n as [|n IH]; intros s r H.
  - exists [], s. auto.
  - cbn in H. destruct s as [|c s]; [discriminate|].
    destruct (is_digit c) eqn:D; [|discriminate].
    destruct (IH s r H) as (cs & s' & E & L & F & M).
    exists (c :: cs), s'. cbn. rewrite E, D, L, F. auto.
Qed.

Lemma match_items_lit_inv c p s r :
  match_items (Lit c :: p) s = Some r ->
  exists s', s = c :: s' /\ match_items p s' = Some r.
Proof.
  cbn. destruct s as [|c' s]; [discriminate|].
  destruct (Z.eqb_spec c' c) as [->|]; [|discriminate].
  intros H. exists s. auto.
Qed.

Lemma line_end_rest (s : pystr) :
  match s with
  | [] => true
  | [c] => c =? newline
  | _ => false
  end = true <-> line_end s.
Proof.
  unfold line_end. destruct s as [|c [|c' s]].
  - intuition.
  - destruct (Z.eqb_spec c newline) as [->|N].
    + intuition.
    + split; [discriminate|]. intros [H|H]; [discriminate|]. congruence.
  - split; [discriminate|]. intros [H|H]; discriminate.
Qed.

(** The texts that [date_regex] matches. *)
Lemma date_regex_matches fecha :
  re_match date_regex fecha = true <->
  exists ys ms ds tl,
    fecha = ys ++ dash :: ms ++ dash :: ds ++ tl /\
    (List.length ys = 4%nat /\ forallb is_digit ys = true) /\
    (List.length ms = 2%nat /\ forallb is_digit ms = true) /\
    (List.length ds = 2%nat /\ forallb is_digit ds = true) /\
    line_end tl.
Proof.
  unfold re_match, date_regex. split.
  - destruct (match_items _ fecha) as [r|] eqn:M; [|discriminate].
    intros T. apply line_end_rest in T.
    apply match_items_digits_inv in M as (ys & s1 & E1 & L1 & D1 & M).
    apply match_items_lit_inv in M as (s2 & E2 & M).
    apply match_items_digits_inv in M as (ms & s3 & E3 & L3 & D3 & M).
    apply match_items_lit_inv in M as (s4 & E4 & M).
    change (repeat Dig 2) with (repeat Dig 2 ++ []) in M.
    apply match_items_digits_inv in M as (ds & s5 & E5 & L5 & D5 & M).
    cbn in M. inversion M; subst s5.
    exists ys, ms, ds, r.
    rewrite E1, E2, E3, E4, E5. auto 10.
  - intros (ys & ms & ds & tl & -> & (L1 & D1) & (L2 & D2) & (L3 & D3) & T).
    rewrite match_items_digits by auto. cbn [app].
    rewrite match_items_lit, match_items_digits by auto. cbn [app].
    rewrite match_items_lit.
    rewrite <- (app_nil_r (repeat Dig 2)), match_items_digits by auto.
    cbn [match_items]. now apply line_end_rest.
Qed.

(** The texts that [time_regex] matches. *)
Lemma time_regex_matches hora :
  re_match time_regex hora = true <->
  exists hs ms tl,
    hora = hs ++ colon :: ms ++ tl /\
    (List.length hs = 2%nat /\ forallb is_digit hs = true) /\
    (List.length ms = 2%nat /\ forallb is_digit ms = true) /\
    line_end tl.
Proof.
  unfold re_match, time_regex. split.
  - destruct (match_items _ hora) as [r|] eqn:M; [|discriminate].
    intros T. apply line_end_rest in T.
    apply match_items_digits_inv in M as (hs & s1 & E1 & L1 & D1 & M).
    apply match_items_lit_inv in M as (s2 & E2 & M).
    change (repeat Dig 2) with (repeat Dig 2 ++ []) in M.
    apply match_items_digits_inv in M as (ms & s3 & E3 & L3 & D3 & M).
    cbn in M. inversion M; subst s3.
    exists hs, ms, r.
    rewrite E1, E2, E3. auto 10.
  - intros (hs & ms & tl & -> & (L1 & D1) & (L2 & D2) & T).
    rewrite match_items_digits by auto. cbn [app].
    rewrite match_items_lit.
    rewrite <- (app_nil_r (repeat Dig 2)), match_items_digits by auto.
    cbn [match_items]. now apply line_end_rest.
Qed.

Lemma split_no_sep sep cs :
  forallb (fun c => negb (c =? sep)) cs = true -> split sep cs = [cs].
Proof.
  induction cs as [|c cs IH]; cbn; [reflexivity|].
  intros H. apply andb_true_iff in H as [H1 H2]. apply negb_true_iff in H1.
  now rewrite H1, IH.
Qed.

Lemma split_piece sep cs rest :
  forallb (fun c => negb (c =? sep)) cs = true ->
  split sep (cs ++ sep :: rest) = cs :: split sep rest.
Proof.
  induction cs as [|c cs IH]; cbn.
  - now rewrite Z.eqb_refl.
  - intros H. apply andb_true_iff in H as [H1 H2]. apply negb_true_iff in H1.
    now rewrite H1, IH.
Qed.

Lemma digits_no_sep sep cs :
  is_digit sep = false -> forallb is_digit cs = true ->
  forallb (fun c => negb (c =? sep)) cs = true.
Proof.
  intros S D. rewrite forallb_forall in *. intros c Hc.
  apply negb_true_iff. apply digit_not_char; auto.
Qed.

Lemma digits_tail_no_sep sep cs tl :
  is_digit sep = false -> sep <> newline ->
  forallb is_digit cs = true -> line_end tl ->
  forallb (fun c => negb (c =? sep)) (cs ++ tl) = true.
Proof.
  intros S N D T. rewrite forallb_app, (digits_no_sep sep cs S D).
  destruct T as [->| ->]; cbn [forallb andb]; [reflexivity|].
  destruct (Z.eqb_spec newline sep); [congruence|reflexivity].
Qed.

Lemma nonempty_of_length {A} (l : list A) n : List.length l = S n -> l <> [].
Proof. destruct l; [discriminate|intros _; discriminate]. Qed.

(** What the conversion makes of a matched date. *)
Lemma map_int_fecha ys ms ds tl :
  (List.length ys = 4%nat /\ forallb is_digit ys = true) ->
  (List.length ms = 2%nat /\ forallb is_digit ms = true) ->
  (List.length ds = 2%nat /\ forallb is_digit ds = true) ->
  line_end tl ->
  map_int (split dash (ys ++ dash :: ms ++ dash :: ds ++ tl)) =
  inr [decimal ys; decimal ms; decimal ds].
Proof.
  intros [L1 D1] [L2 D2] [L3 D3] T.
  rewrite split_piece by (apply digits_no_sep; auto).
  rewrite split_piece by (apply digits_no_sep; auto).
  rewrite split_no_sep by (apply digits_tail_no_sep; auto; discriminate).
  cbn [map_int].
  rewrite <- (app_nil_r ys), <- (app_nil_r ms).
  rewrite !py_int_digits; eauto using nonempty_of_length; try (now left).
  now rewrite !app_nil_r.
Qed.

Lemma map_int_hora hs ms tl :
  (List.length hs = 2%nat /\ forallb is_digit hs = true) ->
  (List.length ms = 2%nat /\ forallb is_digit ms = true) ->
  line_end tl ->
  map_int (split colon (hs ++ colon :: ms ++ tl)) =
  inr [decimal hs; decimal ms].
Proof.
  intros [L1 D1] [L2 D2] T.
  rewrite split_piece by (apply digits_no_sep; auto).
  rewrite split_no_sep by (apply digits_tail_no_sep; auto; discriminate).
  cbn [map_int].
  rewrite <- (app_nil_r hs).
  rewrite !py_int_digits; eauto using nonempty_of_length; try (now left).
  now rewrite !app_nil_r.
Qed.

Lemma is_leap_iff y : is_leap y = true <-> leap_year y.
Proof.
  unfold is_leap, leap_year.
  rewrite andb_true_iff, orb_true_iff, negb_true_iff, !Z.eqb_eq, Z.eqb_neq.
  split.
  - intros [H4 [H|H]]; auto.
  - intros [[H4 H]|H]; [auto|].
    split; [|auto].
    pose proof (Z.mod_pos_bound y 4). pose proof (Z.mod_pos_bound y 400).
    pose proof (Z.div_mod y 4). pose proof (Z.div_mod y 400). lia.
Qed.

Lemma days_in_month_spec y m d :
  1 <= m <= 12 ->
  (1 <= d <= days_in_month y m <-> day_of_month y m d).
Proof.
  intros Hm. unfold day_of_month.
  assert (C : m = 1 \/ m = 2 \/ m = 3 \/ m = 4 \/ m = 5 \/ m = 6 \/ m = 7 \/
              m = 8 \/ m = 9 \/ m = 10 \/ m = 11 \/ m = 12) by lia.
  unfold days_in_month.
  destruct (is_leap y) eqn:L.
  - apply is_leap_iff in L.
    repeat (destruct C as [->|C]); try subst m; cbn; intuition (try lia).
    destruct (Z.eq_dec d 29); [right; right; right|right; right; left]; intuition lia.
  - assert (NL : ~ leap_year y) by (rewrite <- is_leap_iff; congruence).
    repeat (destruct C as [->|C]); try subst m; cbn; intuition lia.
Qed.

(** The constructor accepts exactly the dates and times that exist. *)
Lemma datetime_inr y m d h mi dt :
  datetime y m d h mi = inr dt <->
  dt = mkDateTime y m d h mi /\ calendar_datetime (mkDateTime y m d h mi).
Proof.
  unfold datetime, calendar_datetime, MINYEAR, MAXYEAR. cbn [year month day hour minute].
  destruct (Z.leb_spec 1 y), (Z.leb_spec y 9999); cbn [andb negb];
    try (split; [discriminate|intros (_ & ? & _); lia]).
  destruct (Z.leb_spec 1 m), (Z.leb_spec m 12); cbn [andb negb];
    try (split; [discriminate|intros (_ & _ & (_ & D) & _);
         cbn in D; intuition lia]).
  pose proof (days_in_month_spec y m d ltac:(lia)) as DM.
  destruct (Z.leb_spec 1 d), (Z.leb_spec d (days_in_month y m)); cbn [andb negb];
    try (split; [discriminate|intros (_ & _ & D & _); apply DM in D; lia]).
  destruct (Z.leb_spec 0 h), (Z.leb_spec h 23); cbn [andb negb];
    try (split; [discriminate|intros (_ & _ & _ & ? & _); lia]).
  destruct (Z.leb_spec 0 mi), (Z.leb_spec mi 59); cbn [andb negb];
    try (split; [discriminate|intros (_ & _ & _ & _ & ?); lia]).
  split.
  - intros H'; inversion H'. repeat split; try lia; apply DM; lia.
  - intros [-> _]. reflexivity.
Qed.

(* ================================================================= *)
(** ** The allocator *)

Lemma fold_max_ge xs : forall x,
  x <= fold_left Z.max xs x /\ Forall (fun y => y <= fold_left Z.max xs x) xs.
Proof.
  induction xs as [|y xs IH]; intros x; cbn.
  - split; [lia|constructor].
  - destruct (IH (Z.max x y)) as [H1 H2]. split; [lia|].
    constructor; [lia|exact H2].
Qed.

Lemma fold_max_in xs : forall x, In (fold_left Z.max xs x) (x :: xs).
Proof.
  induction xs as [|y xs IH]; intros x; cbn.
  - now left.
  - specialize (IH (Z.max x y)).
    destruct (Z.max_spec x y) as [[_ E]|[_ E]]; rewrite E in *;
      destruct IH as [H|H]; auto.
Qed.

Lemma py_max_is_max x xs : is_max (py_max x xs) (x :: xs).
Proof.
  split; [apply fold_max_in|].
  destruct (fold_max_ge xs x) as [H1 H2]. rewrite Forall_forall in H2.
  intros y [<-|H]; [exact H1|now apply H2].
Qed.

Lemma is_max_unique a b l : is_max a l -> is_max b l -> a = b.
Proof. intros [A1 A2] [B1 B2]. apply A2 in B1. apply B2 in A1. lia. Qed.

Lemma next_id_max ms top : is_max top (ids_of ms) -> next_id ms = top + 1.
Proof.
  unfold next_id. destruct (ids_of ms) as [|x xs] eqn:E.
  - intros [[] _].
  - intros H. now rewrite (is_max_unique _ _ _ (py_max_is_max x xs) H).
Qed.

Lemma next_id_gt ms x : In x (ids_of ms) -> x < next_id ms.
Proof.
  unfold next_id. destruct (ids_of ms) as [|y ys]; [intros []|].
  intros H. destruct (py_max_is_max y ys) as [_ M]. apply M in H. lia.
Qed.

Lemma next_id_positive ms : ids_positive ms -> 0 < next_id ms.
Proof.
  unfold ids_positive, next_id. destruct (ids_of ms) as [|y ys]; [lia|].
  intros H. destruct (py_max_is_max y ys) as [M _].
  rewrite Forall_forall in H. apply H in M. lia.
Qed.

(** [next_id] returns [d] exactly when nothing is stored and [d] is 1, or
    the greatest stored id is [d - 1]. *)
Lemma next_id_eq_iff ms d :
  next_id ms = d <-> (ms = [] /\ d = 1) \/ is_max (d - 1) (ids_of ms).
Proof.
  split.
  - intros <-. destruct ms as [|m ms]; [left; auto|right].
    unfold next_id. cbn [ids_of map].
    replace (py_max (id m) (map id ms) + 1 - 1) with (py_max (id m) (map id ms)) by lia.
    apply py_max_is_max.
  - intros [[-> ->]|H]; [reflexivity|].
    rewrite (next_id_max _ _ H). lia.
Qed.

(* ================================================================= *)
(** ** The invariant of the registry *)

Lemma sorted_snoc l n :
  StronglySorted Z.lt l -> Forall (fun x => x < n) l -> StronglySorted Z.lt (l ++ [n]).
Proof.
  induction 1 as [|a l S IH F]; intros H; cbn.
  - repeat constructor.
  - inversion H as [|? ? Ha Hl]; subst. constructor; [now apply IH|].
    apply Forall_app. split; [exact F|]. repeat constructor. exact Ha.
Qed.

Lemma sorted_remove l1 (a : Z) l2 :
  StronglySorted Z.lt (l1 ++ a :: l2) -> StronglySorted Z.lt (l1 ++ l2).
Proof.
  induction l1 as [|x l1 IH]; cbn; intros H.
  - now apply StronglySorted_inv in H.
  - apply StronglySorted_inv in H as [S F]. constructor; [now apply IH|].
    apply Forall_app in F as [F1 F2]. apply Forall_app. split; [exact F1|].
    now inversion F2.
Qed.

Lemma sorted_nodup l : StronglySorted Z.lt l -> NoDup l.
Proof.
  induction 1 as [|a l S IH F]; constructor; [|exact IH].
  rewrite Forall_forall in F. intros H. apply F in H. lia.
Qed.

Lemma ids_of_app l1 l2 : ids_of (l1 ++ l2) = ids_of l1 ++ ids_of l2.
Proof. apply map_app. Qed.

Lemma registry_after_save io d w w' :
  file w' = file_after_save io d (file w) ->
  registry w' = match io with
                | DiskOk => meetups d
                | OpenFails => registry w
                | WriteFails _ => []
                end.
Proof.
  destruct io; cbn; intros F.
  - now apply registry_dumped.
  - now apply registry_file.
  - now apply registry_cut with (d := d) (k := k).
Qed.

(** What a command leaves as the registry. *)
Lemma run_registry c w :
  registry (snd (run c w)) = registry w
  \/ registry (snd (run c w)) = []
  \/ (exists m, fst (run c w) = QuedadaCreada m /\ id m = next_id (registry w) /\
                registry (snd (run c w)) = registry w ++ [m])
  \/ (exists l1 m l2, registry w = l1 ++ m :: l2 /\
                      registry (snd (run c w)) = l1 ++ l2).
Proof.
  destruct c as [|io t de f h l e|io i n]; cbn [run].
  - destruct (quedadas_run w) as (w' & -> & F). left. now apply registry_file.
  - destruct (check_fecha_hora f h) as [r|dt] eqn:C.
    + rewrite (crear_quedada_rejected io t de f h l e w r C). now left.
    + destruct (crear_quedada_accepted io t de f h l e w dt C) as (w' & -> & F).
      cbn [fst snd]. apply registry_after_save in F.
      destruct io; cbn [saved_ok meetups] in *; auto.
      right. right. left. exists (new_meetup_of w t de l e dt). auto.
  - destruct (manage_messages i) eqn:P.
    2: { rewrite (eliminar_quedada_denied io i n w P). now left. }
    destruct (in_dec Z.eq_dec n (ids_of (registry w))) as [H|H].
    + destruct (first_occurrence _ _ H) as (l1 & m & l2 & R & Hm & Hn).
      destruct (eliminar_quedada_found io i n w l1 m l2 P R Hm Hn) as (w' & -> & F).
      cbn [snd]. apply registry_after_save in F.
      destruct io; cbn [meetups] in *; auto.
      right. right. right. exists l1, m, l2. auto.
    + rewrite (eliminar_quedada_not_found io i n w P H). cbn [snd].
      left. apply registry_file, get_meetups_file.
Qed.

Lemma run_invariant c w :
  ids_increasing (registry w) /\ ids_positive (registry w) ->
  ids_increasing (registry (snd (run c w))) /\ ids_positive (registry (snd (run c w))).
Proof.
  unfold ids_increasing, ids_positive. intros [S P].
  destruct (run_registry c w) as [->|[->|[(m & _ & Hm & ->)|(l1 & m & l2 & R & ->)]]].
  - auto.
  - split; constructor.
  - rewrite ids_of_app. cbn. split.
    + apply sorted_snoc; [exact S|]. rewrite Forall_forall. intros x Hx.
      rewrite Hm. now apply next_id_gt.
    + apply Forall_app. split; [exact P|]. repeat constructor.
      rewrite Hm. now apply next_id_positive.
  - rewrite R in S, P. rewrite ids_of_app in *. cbn in S, P. split.
    + now apply sorted_remove in S.
    + apply Forall_app in P as [P1 P2]. apply Forall_app. split; [exact P1|].
      now inversion P2.
Qed.

Lemma run_all_cons c cs w :
  run_all (c :: cs) w =
    (fst (run c w) :: fst (run_all cs (snd (run c w))),
     snd (run_all cs (snd (run c w)))).
Proof.
  cbn [run_all]. unfold bind, ret.
  destruct (run c w) as [r w1]. cbn [fst snd].
  destruct (run_all cs w1) as [rs w2]. reflexivity.
Qed.

Lemma run_all_invariant cs : forall w,
  ids_increasing (registry w) /\ ids_positive (registry w) ->
  ids_increasing (registry (snd (run_all cs w))) /\
  ids_positive (registry (snd (run_all cs w))).
Proof.
  induction cs as [|c cs IH]; intros w H; [exact H|].
  rewrite run_all_cons. cbn [snd]. apply IH. now apply run_invariant.
Qed.

(** The id that a creation returns is the one [generate_meetup_id] gives
    for the registry it loads. *)
Lemma created_id_is_next c w m :
  fst (run c w) = QuedadaCreada m -> id m = next_id (registry w).
Proof.
  destruct c as [|io t de f h l e|io i n]; cbn [run].
  - destruct (quedadas_run w) as (w' & -> & _). cbn [fst].
    destruct (registry w); discriminate.
  - destruct (check_fecha_hora f h) as [r|dt] eqn:C.
    + rewrite (crear_quedada_rejected io t de f h l e w r C). cbn [fst].
      intros ->. apply check_fecha_hora_rejection in C. discriminate C.
    + destruct (crear_quedada_accepted io t de f h l e w dt C) as (w' & -> & _).
      cbn [fst]. destruct (saved_ok io); [|discriminate].
      intros H. inversion H. reflexivity.
  - destruct (manage_messages i) eqn:P.
    2: { rewrite (eliminar_quedada_denied io i n w P). discriminate. }
    destruct (in_dec Z.eq_dec n (ids_of (registry w))) as [H|H].
    + destruct (first_occurrence _ _ H) as (l1 & x & l2 & R & Hm & Hn).
      destruct (eliminar_quedada_found io i n w l1 x l2 P R Hm Hn) as (w' & -> & _).
      cbn [fst]. destruct (saved_ok io); discriminate.
    + rewrite (eliminar_quedada_not_found io i n w P H). discriminate.
Qed.

Lemma created_id_above c w m :
  fst (run c w) = QuedadaCreada m -> Forall (fun x => x < id m) (ids_of (registry w)).
Proof.
  intros H. rewrite (created_id_is_next c w m H).
  rewrite Forall_forall. intros x Hx. now apply next_id_gt.
Qed.

(** Creations with no deletion and no broken write between them: each id
    returned is above every id stored before the run and above the ids
    returned before it. *)
Lemma steady_created_ids cs : forall w,
  forallb steady cs = true ->
  StronglySorted Z.lt (created_ids (fst (run_all cs w))) /\
  Forall (fun n => forall x, In x (ids_of (registry w)) -> x < n)
         (created_ids (fst (run_all cs w))).
Proof.
  induction cs as [|c cs IH]; intros w H.
  - cbn. split; constructor.
  - cbn [forallb] in H. apply andb_true_iff in H as [Hc Hcs].
    rewrite run_all_cons. cbn [fst].
    destruct (IH (snd (run c w)) Hcs) as [S F].
    destruct c as [|io t de f h l e|io i n]; cbn [run] in *; try discriminate.
    + destruct (quedadas_run w) as (w' & E & Fw). rewrite E in *. cbn [fst snd] in *.
      rewrite (registry_file _ _ Fw) in F.
      destruct (registry w); cbn [created_ids]; auto.
    + destruct (check_fecha_hora f h) as [r|dt] eqn:C.
      * rewrite (crear_quedada_rejected io t de f h l e w r C) in *. cbn [fst snd] in *.
        apply check_fecha_hora_rejection in C.
        destruct r; try discriminate; cbn [created_ids]; auto.
      * destruct (crear_quedada_accepted io t de f h l e w dt C) as (w' & E & Fw).
        rewrite E in *. cbn [fst snd] in *. apply registry_after_save in Fw.
        destruct io; try discriminate; cbn [saved_ok meetups created_ids] in *.
        -- rewrite Fw, ids_of_app in F. rewrite Forall_forall in F. split.
           ++ constructor; [exact S|]. rewrite Forall_forall. intros n Hn.
              apply (F n Hn). apply in_or_app. right. now left.
           ++ constructor.
              ** intros x Hx. now apply next_id_gt.
              ** rewrite Forall_forall. intros n Hn x Hx.
                 apply (F n Hn). apply in_or_app. now left.
        -- rewrite Fw in F. auto.
Qed.

(** What the stretch of creations below leaves out: with a deletion
    between them, two creations return the same id, and so they do after a
    write that broke off, which leaves a store that reads as empty. *)
Example created_ids_repeat :
  created_ids (fst (run_all [picnic; picnic; Eliminar DiskOk moderator 2; picnic]
                      initial_world)) = [1; 2; 2] /\
  created_ids (fst (run_all [picnic; picnic;
                             Crear (WriteFails 0) "Cena" "" "2025-01-31" "21:30" "Bar"
                               "pendiente";
                             picnic]
                      initial_world)) = [1; 2; 1].
Proof. split; reflexivity. Qed.

(** C1: in every state reached from the empty store by creations,
    deletions and listings run one at a time, whatever the disk does, the
    ids of the registry are pairwise distinct and strictly positive (they
    grow strictly along the stored order); a creation made in such a state
    returns a positive id greater than every id then stored; in
    particular, over creations that follow one another from such a state
    (no deletion and no write broken off among them), the ids returned
    grow strictly and are greater than every id stored at the start. *)
Theorem registry_ids_distinct_positive (before creates : list Command) :
  let w := snd (run_all before initial_world) in
  let returned := created_ids (fst (run_all creates w)) in
  NoDup (ids_of (registry w)) /\
  Forall (fun n => 0 < n) (ids_of (registry w)) /\
  StronglySorted Z.lt (ids_of (registry w)) /\
  (forall c m, fst (run c w) = QuedadaCreada m ->
     0 < id m /\ Forall (fun x => x < id m) (ids_of (registry w))) /\
  (forallb steady creates = true ->
     StronglySorted Z.lt returned /\
     Forall (fun n => forall x, In x (ids_of (registry w)) -> x < n) returned).
Proof.
  cbv zeta.
  destruct (run_all_invariant before initial_world) as [S P].
  { split; constructor. }
  split; [now apply sorted_nodup|]. split; [exact P|]. split; [exact S|]. split.
  - intros c m H. split; [|now apply (created_id_above c)].
    rewrite (created_id_is_next c _ m H). now apply next_id_positive.
  - intros H. now apply steady_created_ids.
Qed.

Lemma registry_ids_distinct_positive_witness :
  let w := snd (run_all [picnic; Eliminar DiskOk moderator 1] initial_world) in
  let returned := created_ids (fst (run_all [picnic; Quedadas; picnic; picnic] w)) in
  returned = [1; 2; 3] /\ StronglySorted Z.lt returned.
Proof.
  cbv zeta. split; [reflexivity|].
  apply (registry_ids_distinct_positive
           [picnic; Eliminar DiskOk moderator 1] [picnic; Quedadas; picnic; picnic]).
  reflexivity.
Defined.

(** C2, as the specification has it, fails for both of its consequences:
    from ids 1, 2, 3 the id 2, deleted while smaller than the greatest, is
    returned again once 3 is deleted too; and from ids 1, 3 the greatest
    id 3, once deleted, is not the one returned next: 2 is. *)
Lemma deleted_ids_and_the_next_create :
  ~ smaller_deleted_never_reassigned
      (snd (run_all [picnic; picnic; picnic] initial_world)) 2
      [Eliminar DiskOk moderator 3; picnic]
  /\
  ~ deleted_maximum_reassigned
      (snd (run_all [picnic; picnic; picnic; Eliminar DiskOk moderator 2] initial_world)) 3.
Proof.
  split.
  - unfold smaller_deleted_never_reassigned. intros H. apply H.
    + vm_compute. auto.
    + exists 3. split; [split|lia].
      * vm_compute. auto.
      * vm_compute. intros x [<-|[<-|[<-|[]]]]; discriminate.
    + vm_compute. auto.
  - unfold deleted_maximum_reassigned. intros H.
    assert (M : is_max 3 (ids_of (registry
      (snd (run_all [picnic; picnic; picnic; Eliminar DiskOk moderator 2] initial_world))))).
    { split.
      - vm_compute. auto.
      - vm_compute. intros x [<-|[<-|[]]]; discriminate. }
    apply H in M. vm_compute in M. discriminate M.
Qed.

Lemma is_max_remove top d l1 l2 :
  is_max top (l1 ++ d :: l2) -> d < top -> is_max top (l1 ++ l2).
Proof.
  intros [I M] L. split.
  - apply in_app_or in I. apply in_or_app.
    destruct I as [I|[I|I]]; [now left|lia|now right].
  - intros x Hx. apply M. apply in_app_or in Hx. apply in_or_app.
    destruct Hx; [now left|right; now right].
Qed.

(** C2, amended: for every loaded registry, the id given to a new record
    is 1 when the registry is empty and the greatest id plus one
    otherwise; it is greater than every id stored at that time, so a
    deleted id is not given again while a greater id is stored.  For a
    deletion followed at once by a creation: when the deleted id was
    smaller than the greatest id, the creation returns the greatest id
    plus one, so not the deleted one; and the creation returns the deleted
    id exactly when no record is left and the id was 1, or the greatest id
    left is one less than it. *)
Theorem next_id_rule (w : World) (t de : string) (f h : pystr) (l e : string)
    (dt : DateTime) :
  check_fecha_hora f h = inr dt ->
  let crear := Crear DiskOk t de f h l e in
  (exists m, fst (run crear w) = QuedadaCreada m /\
             (registry w = [] -> id m = 1) /\
             (forall top, is_max top (ids_of (registry w)) -> id m = top + 1) /\
             Forall (fun x => x < id m) (ids_of (registry w)))
  /\
  (forall (i : Interaction) (d : Z),
     manage_messages i = true ->
     In d (ids_of (registry w)) ->
     exists gone m,
       fst (run_all [Eliminar DiskOk i d; crear] w)
         = [QuedadaEliminada gone; QuedadaCreada m] /\
       id gone = d /\
       let rest := registry (snd (run (Eliminar DiskOk i d) w)) in
       (forall top, is_max top (ids_of (registry w)) -> d < top ->
          id m = top + 1 /\ id m <> d) /\
       (id m = d <-> (rest = [] /\ d = 1) \/ is_max (d - 1) (ids_of rest))).
Proof.
  intros C crear. split.
  - destruct (crear_quedada_accepted DiskOk t de f h l e w dt C) as (w' & E & _).
    exists (new_meetup_of w t de l e dt). subst crear. cbn [run]. rewrite E.
    cbn [fst saved_ok new_meetup_of id]. repeat split.
    + now intros ->.
    + intros top M. now apply next_id_max.
    + rewrite Forall_forall. intros x Hx. now apply next_id_gt.
  - intros i d P H.
    destruct (first_occurrence _ _ H) as (l1 & m & l2 & R & Hm & Hn).
    destruct (eliminar_quedada_found DiskOk i d w l1 m l2 P R Hm Hn) as (w1 & E1 & F1).
    destruct (crear_quedada_accepted DiskOk t de f h l e w1 dt C) as (w2 & E2 & _).
    cbn [saved_ok file_after_save] in *.
    pose proof (registry_dumped _ _ F1) as R1. cbn [meetups] in R1.
    exists m, (new_meetup_of w1 t de l e dt).
    rewrite run_all_cons, run_all_cons. subst crear. cbn [run run_all].
    rewrite E1. cbn [fst snd]. rewrite E2. cbn [fst snd ret new_meetup_of id].
    rewrite R1. split; [reflexivity|]. split; [exact Hm|]. split.
    + intros top M L.
      rewrite R, ids_of_app in M. cbn [ids_of map] in M. rewrite Hm in M.
      apply (is_max_remove top d) in M; [|exact L].
      rewrite <- ids_of_app in M.
      rewrite (next_id_max (l1 ++ l2) top M). split; lia.
    + apply next_id_eq_iff.
Qed.

Lemma next_id_rule_witness :
  (exists m, fst (run picnic initial_world) = QuedadaCreada m /\ id m = 1)
  /\
  (exists gone m,
     fst (run_all [Eliminar DiskOk moderator 2; picnic]
            (snd (run_all [picnic; picnic; picnic] initial_world)))
       = [QuedadaEliminada gone; QuedadaCreada m] /\
     id gone = 2 /\ id m = 4).
Proof.
  split.
  - destruct (next_id_rule initial_world
                "Picnic" "Bring food" "2024-06-01" "18:00" "Park" "activo"
                (mkDateTime 2024 6 1 18 0) eq_refl) as [(m & E & H1 & _ & _) _].
    exists m. split; [exact E|]. apply H1. reflexivity.
  - destruct (next_id_rule (snd (run_all [picnic; picnic; picnic] initial_world))
                "Picnic" "Bring food" "2024-06-01" "18:00" "Park" "activo"
                (mkDateTime 2024 6 1 18 0) eq_refl) as [_ H].
    destruct (H moderator 2) as (gone & m & E & G & Hlt & _).
    + reflexivity.
    + vm_compute. auto.
    + exists gone, m. split; [exact E|]. split; [exact G|].
      apply (Hlt 3); [|lia]. split.
      * vm_compute. auto.
      * vm_compute. intros x [<-|[<-|[<-|[]]]]; discriminate.
Defined.

(* ================================================================= *)
(** ** Create: what is checked and what is not *)

(** The checks pass, with the date [dt], exactly on the texts that denote
    [dt]. *)
Lemma check_fecha_hora_inr fecha hora dt :
  check_fecha_hora fecha hora = inr dt <-> denotes_datetime fecha hora dt.
Proof.
  unfold check_fecha_hora, denotes_datetime, fecha_denotes, hora_denotes, numeral.
  split.
  - destruct (re_match date_regex fecha) eqn:RD; cbn [negb]; [|discriminate].
    destruct (re_match time_regex hora) eqn:RT; cbn [negb]; [|discriminate].
    apply date_regex_matches in RD as (ys & ms & ds & tl & -> & Y & Mo & D & T).
    apply time_regex_matches in RT as (hs & mis & tl' & -> & Hh & Mi & T').
    unfold parse_fecha_hora.
    rewrite map_int_fecha, map_int_hora by assumption.
    destruct (datetime _ _ _ _ _) as [|dt'] eqn:DT; [discriminate|].
    intros H; inversion H; subst dt'; clear H.
    apply datetime_inr in DT as [-> C]. cbn [year month day hour minute].
    split; [|split; [|exact C]].
    + exists ys, ms, ds, tl. rewrite !reads_as_decimal. intuition.
    + exists hs, mis, tl'. rewrite !reads_as_decimal. intuition.
  - intros ((ys & ms & ds & tl & -> & (L1 & R1) & (L2 & R2) & (L3 & R3) & T)
            & (hs & mis & tl' & -> & (L4 & R4) & (L5 & R5) & T') & C).
    apply reads_as_decimal in R1 as [D1 V1], R2 as [D2 V2], R3 as [D3 V3],
      R4 as [D4 V4], R5 as [D5 V5].
    assert (RD : re_match date_regex (ys ++ dash :: ms ++ dash :: ds ++ tl) = true).
    { apply date_regex_matches. exists ys, ms, ds, tl. auto 10. }
    assert (RT : re_match time_regex (hs ++ colon :: mis ++ tl') = true).
    { apply time_regex_matches. exists hs, mis, tl'. auto 10. }
    rewrite RD, RT. cbn [negb]. unfold parse_fecha_hora.
    rewrite map_int_fecha, map_int_hora by auto.
    rewrite V1, V2, V3, V4, V5.
    destruct dt as [y m d h mi]. cbn [year month day hour minute] in *.
    assert (DT : datetime y m d h mi = inr (mkDateTime y m d h mi)).
    { apply datetime_inr. auto. }
    now rewrite DT.
Qed.

Lemma of_string_app (s1 s2 : string) :
  of_string (s1 ++ s2)%string = of_string s1 ++ of_string s2.
Proof.
  unfold of_string. induction s1 as [|c s1 IH]; cbn; [reflexivity|now rewrite IH].
Qed.

Lemma digit_char_code n :
  Z.of_nat (nat_of_ascii (digit_char n)) = 48 + n mod 10.
Proof.
  unfold digit_char. pose proof (Z.mod_pos_bound n 10 ltac:(lia)) as B.
  rewrite nat_ascii_embedding by lia. lia.
Qed.

(** [zfill] writes a number that fits with exactly that many digits. *)
Lemma zfill_numeral w : forall n,
  0 <= n < 10 ^ Z.of_nat w -> numeral w (zfill w n) n.
Proof.
  unfold numeral. induction w as [|w IH]; intros n B.
  - cbn in *. replace n with 0 by lia. split; [reflexivity|constructor].
  - cbn [zfill]. rewrite !of_string_app.
    change (of_string (String (digit_char n) ""))
      with [Z.of_nat (nat_of_ascii (digit_char n))].
    rewrite digit_char_code.
    rewrite Nat2Z.inj_succ, Z.pow_succ_r in B by lia.
    destruct (IH (n / 10)) as (L & R).
    { pose proof (Z.div_mod n 10 ltac:(lia)).
      pose proof (Z.mod_pos_bound n 10 ltac:(lia)).
      split; [apply Z.div_pos; lia|apply Z.div_lt_upper_bound; lia]. }
    pose proof (Z.mod_pos_bound n 10 ltac:(lia)) as M.
    split.
    + rewrite length_app, L. cbn. lia.
    + assert (E : reads_as (of_string (zfill w (n / 10)) ++ [48 + n mod 10])
                           (10 * (n / 10) + n mod 10)).
      { constructor; [exact R|]. split; [lia|].
        exists 48. split; [now left|reflexivity]. }
      now rewrite <- Z.div_mod in E by lia.
Qed.

Lemma day_of_month_bounds y m d : day_of_month y m d -> 1 <= m <= 12 /\ 1 <= d <= 31.
Proof. unfold day_of_month. cbn. intuition lia. Qed.

(** Every date and time that exists is denoted by its texts; so the
    checks pass on them. *)
Lemma calendar_text_denotes dt :
  calendar_datetime dt -> denotes_datetime (fecha_text dt) (hora_text dt) dt.
Proof.
  intros C. pose proof C as (Y & D & H & Mi).
  apply day_of_month_bounds in D as [Mo D].
  split; [|split; [|exact C]].
  - exists (of_string (zfill 4 (year dt))), (of_string (zfill 2 (month dt))),
           (of_string (zfill 2 (day dt))), [].
    unfold fecha_text. rewrite !of_string_app, app_nil_r.
    repeat split; try (left; reflexivity); apply zfill_numeral; cbn; lia.
  - exists (of_string (zfill 2 (hour dt))), (of_string (zfill 2 (minute dt))), [].
    unfold hora_text. rewrite !of_string_app, app_nil_r.
    repeat split; try (left; reflexivity); apply zfill_numeral; cbn; lia.
Qed.

(** C6: a creation whose date and time texts denote no date and time that
    exists (the texts are not of the form YYYY-MM-DD and HH:MM, or the day is
    not in the month, the month is not 1 to 12, the hour is 24 or more, the
    minute 60 or more) is turned down with one of the three messages about
    the date and the state is untouched; a creation whose texts denote a
    date and time that exists passes the checks with that date, which goes
    into the record; and every date and time that exists has such texts.
    (The digits may be those of any script, as [\d] and [int] take them,
    and a text is read with or without a newline at its end.) *)
Theorem crear_quedada_checks_date (io : Disk)
    (titulo descripcion : string) (fecha hora : pystr) (lugar estado : string)
    (w : World) :
  let out := crear_quedada io titulo descripcion fecha hora lugar estado w in
  ((~ exists dt, denotes_datetime fecha hora dt) ->
     is_rejection (fst out) = true /\ snd out = w)
  /\
  (forall dt, denotes_datetime fecha hora dt ->
     check_fecha_hora fecha hora = inr dt /\
     is_rejection (fst out) = false /\
     (io = DiskOk -> exists m, fst out = QuedadaCreada m /\ date m = isoformat dt))
  /\
  (forall dt, calendar_datetime dt ->
     check_fecha_hora (fecha_text dt) (hora_text dt) = inr dt).
Proof.
  cbv zeta. split; [|split].
  - intros N. destruct (check_fecha_hora fecha hora) as [r|dt] eqn:C.
    + rewrite (crear_quedada_rejected io _ _ _ _ _ _ w r C). cbn [fst snd].
      split; [now apply check_fecha_hora_rejection in C|reflexivity].
    + exfalso. apply N. exists dt. now apply check_fecha_hora_inr.
  - intros dt H. apply check_fecha_hora_inr in H. split; [exact H|].
    destruct (crear_quedada_accepted io titulo descripcion fecha hora lugar estado w dt H)
      as (w' & -> & _).
    cbn [fst]. split.
    + now destruct io.
    + intros ->. cbn [saved_ok]. eexists. split; reflexivity.
  - intros dt C. now apply check_fecha_hora_inr, calendar_text_denotes.
Qed.

Lemma crear_quedada_checks_date_witness :
  (let out := crear_quedada DiskOk "Picnic" "Bring food" "2023-02-30" "18:00" "Park" "activo"
                initial_world in
   is_rejection (fst out) = true /\ snd out = initial_world)
  /\
  (let out := crear_quedada DiskOk "Picnic" "Bring food" "2024-02-29" "18:00" "Park" "activo"
                initial_world in
   check_fecha_hora "2024-02-29" "18:00" = inr (mkDateTime 2024 2 29 18 0) /\
   is_rejection (fst out) = false /\
   exists m, fst out = QuedadaCreada m /\ date m = "2024-02-29T18:00:00+00:00")
  /\
  check_fecha_hora "1999-12-31" "23:59" = inr (mkDateTime 1999 12 31 23 59).
Proof.
  split; [|split].
  - apply (crear_quedada_checks_date DiskOk "Picnic" "Bring food" "2023-02-30" "18:00"
             "Park" "activo" initial_world).
    intros [dt H]. apply check_fecha_hora_inr in H. vm_compute in H. discriminate H.
  - destruct (crear_quedada_checks_date DiskOk "Picnic" "Bring food" "2024-02-29" "18:00"
                "Park" "activo" initial_world) as (_ & H & _).
    destruct (H (mkDateTime 2024 2 29 18 0)) as (C & R & Cr).
    + split; [|split].
      * exists (of_string "2024"), (of_string "02"), (of_string "29"), [].
        split; [reflexivity|]. repeat split; try (now left);
          apply reads_as_decimal; split; reflexivity.
      * exists (of_string "18"), (of_string "00"), [].
        split; [reflexivity|]. repeat split; try (now left);
          apply reads_as_decimal; split; reflexivity.
      * unfold calendar_datetime, day_of_month, leap_year. cbn.
        repeat split; lia.
    + split; [exact C|]. split; [exact R|]. exact (Cr eq_refl).
  - destruct (crear_quedada_checks_date DiskOk "Picnic" "Bring food" "1999-12-31" "23:59"
                "Park" "activo" initial_world) as (_ & _ & H).
    apply (H (mkDateTime 1999 12 31 23 59)).
    unfold calendar_datetime, day_of_month, leap_year. cbn. repeat split; lia.
Defined.

(** The dates and times that the specification gives as not valid, and a
    day 31 in a month of 30, are turned down. *)
Example invalid_dates_rejected :
  check_fecha_hora "2023-02-30" "18:00" = inl FechaHoraNoValidas /\
  check_fecha_hora "2023-13-01" "18:00" = inl FechaHoraNoValidas /\
  check_fecha_hora "2023-04-31" "18:00" = inl FechaHoraNoValidas /\
  check_fecha_hora "2023-06-15" "25:00" = inl FechaHoraNoValidas /\
  check_fecha_hora "2023-06-15" "18:60" = inl FechaHoraNoValidas /\
  check_fecha_hora "2023-6-15" "18:00" = inl FormatoFecha /\
  check_fecha_hora "2023-06-15" "6pm" = inl FormatoHora.
Proof. repeat split. Qed.

(** C4, as the specification has it, fails: a creation with a title of
    blanks only is carried out and the store changes. *)
Lemma blank_title_is_stored :
  ~ blank_text_rejected DiskOk "  " "Bring food" "2024-06-01" "18:00" "Park" "activo"
      initial_world.
Proof.
  unfold blank_text_rejected. intros H.
  destruct H as [H _]; [left; reflexivity|].
  vm_compute in H. discriminate H.
Qed.

(** C4, amended: [crear_quedada] does not look at the title or the
    description.  For a creation whose title or description is blank, as
    for any other, the date and the time alone decide whether it is turned
    down; when they pass and the save succeeds the record is appended with
    the title and the description exactly as given. *)
Theorem crear_quedada_blank_text (io : Disk)
    (titulo descripcion : string) (fecha hora : pystr) (lugar estado : string)
    (w : World) :
  blank titulo \/ blank descripcion ->
  let out := crear_quedada io titulo descripcion fecha hora lugar estado w in
  match check_fecha_hora fecha hora with
  | inl r => out = (r, w)
  | inr dt =>
      let m := new_meetup_of w titulo descripcion lugar estado dt in
      title m = titulo /\ description m = descripcion /\
      fst out = (if saved_ok io then QuedadaCreada m else ErrorAlCrear) /\
      file (snd out) = file_after_save io (mkData (registry w ++ [m])) (file w)
  end.
Proof.
  intros _. cbv zeta. destruct (check_fecha_hora fecha hora) as [r|dt] eqn:C.
  - now apply crear_quedada_rejected.
  - destruct (crear_quedada_accepted io titulo descripcion fecha hora lugar estado w dt C)
      as (w' & -> & F).
    cbn [fst snd]. auto.
Qed.

Lemma crear_quedada_blank_text_witness :
  let out := crear_quedada DiskOk "  " "" "2024-06-01" "18:00" "Park" "activo" initial_world in
  let m := new_meetup_of initial_world "  " "" "Park" "activo" (mkDateTime 2024 6 1 18 0) in
  title m = "  " /\ description m = "" /\
  fst out = QuedadaCreada m /\
  file (snd out) = Some (Dumped (mkData [m])).
Proof.
  apply (crear_quedada_blank_text DiskOk "  " "" "2024-06-01" "18:00" "Park" "activo"
           initial_world).
  left. reflexivity.
Defined.

(** C5, as the specification has it, fails: a creation with a status that
    is neither of the two is carried out, and a load then finds the new
    record. *)
Lemma unknown_status_is_stored :
  ~ unknown_status_rejected DiskOk "Picnic" "Bring food" "2024-06-01" "18:00" "Park"
      "cancelado" initial_world.
Proof.
  unfold unknown_status_rejected. intros H.
  destruct H as [H _].
  - cbn. intros [E|[E|[]]]; discriminate E.
  - vm_compute in H. discriminate H.
Qed.

(** C5, amended: [crear_quedada] does not look at the status; the two
    values are what the command declares as choices, and that declaration
    is the only place where others are excluded.  A creation that reaches
    the handler with another status is turned down only for its date or
    time; when these pass, the record carries the status exactly as given,
    and after a save that succeeds a load finds the registry with the
    record appended. *)
Theorem crear_quedada_unknown_status (io : Disk)
    (titulo descripcion : string) (fecha hora : pystr) (lugar estado : string)
    (w : World) :
  ~ In estado estado_choices ->
  let out := crear_quedada io titulo descripcion fecha hora lugar estado w in
  match check_fecha_hora fecha hora with
  | inl r => out = (r, w)
  | inr dt =>
      let m := new_meetup_of w titulo descripcion lugar estado dt in
      status m = estado /\
      fst out = (if saved_ok io then QuedadaCreada m else ErrorAlCrear) /\
      registry (snd out) =
        match io with
        | DiskOk => registry w ++ [m]
        | OpenFails => registry w
        | WriteFails _ => []
        end
  end.
Proof.
  intros _. cbv zeta. destruct (check_fecha_hora fecha hora) as [r|dt] eqn:C.
  - now apply crear_quedada_rejected.
  - destruct (crear_quedada_accepted io titulo descripcion fecha hora lugar estado w dt C)
      as (w' & -> & F).
    cbn [fst snd]. apply registry_after_save in F. auto.
Qed.

Lemma crear_quedada_unknown_status_witness :
  let out := crear_quedada DiskOk "Picnic" "Bring food" "2024-06-01" "18:00" "Park"
               "cancelado" initial_world in
  let m := new_meetup_of initial_world "Picnic" "Bring food" "Park" "cancelado"
             (mkDateTime 2024 6 1 18 0) in
  status m = "cancelado" /\
  fst out = QuedadaCreada m /\
  registry (snd out) = registry initial_world ++ [m].
Proof.
  apply (crear_quedada_unknown_status DiskOk "Picnic" "Bring food" "2024-06-01" "18:00"
           "Park" "cancelado" initial_world).
  cbn. intros [E|[E|[]]]; discriminate E.
Defined.

(* ================================================================= *)
(** ** Storage: load and save *)

(** C3, as the specification has it, fails: a store holding text that is
    not JSON is loaded as the empty registry. *)
Lemma corrupt_store_read_as_empty :
  ~ load_reports_corruption {| file := Some (Unparsable "{"); events := [] |}.
Proof.
  unfold load_reports_corruption. intros H. apply H; [|reflexivity].
  exists (Unparsable "{"), JSONDecodeError. split; reflexivity.
Qed.

(** C3, amended: for every store that is there and cannot be parsed,
    [get_meetups] raises nothing: it logs the error of the read and returns
    the empty registry [default_meetups], leaving the file as it is, so
    that [/quedadas] answers as it does on an empty store. *)
Theorem get_meetups_unparsable (w : World) :
  unparsable_store w ->
  get_meetups w =
    (default_meetups,
     {| file := file w;
        events := Logged "Error reading meetups file" JSONDecodeError
                  :: Opened ModeR :: events w |})
  /\ fst (quedadas w) = NoHayQuedadas.
Proof.
  intros (c & e & F & J).
  assert (G : get_meetups w =
    (default_meetups,
     {| file := file w;
        events := Logged "Error reading meetups file" JSONDecodeError
                  :: Opened ModeR :: events w |})).
  { unfold get_meetups, bind, open_and_load. rewrite F.
    destruct c; cbn in J; try discriminate; reflexivity. }
  split; [exact G|].
  unfold quedadas, bind. rewrite G. reflexivity.
Qed.

Lemma get_meetups_unparsable_witness :
  fst (quedadas {| file := Some (Cut default_meetups 3); events := [] |}) = NoHayQuedadas.
Proof.
  apply (get_meetups_unparsable {| file := Some (Cut default_meetups 3); events := [] |}).
  exists (Cut default_meetups 3), JSONDecodeError. split; reflexivity.
Defined.

(** C9, as the specification has it, fails: a write that stops early
    leaves a store that is neither the previous one nor the new one, and a
    load then sees neither registry. *)
Lemma interrupted_save_leaves_neither :
  let w := snd (run picnic initial_world) in
  let d := mkData (registry (snd (run_all [picnic; picnic] initial_world))) in
  ~ save_all_or_nothing (WriteFails 0) d w.
Proof.
  cbv zeta. unfold save_all_or_nothing. intros [[H|H] _]; vm_compute in H; discriminate H.
Qed.

(** C9, amended: [save_meetups] opens the store file itself for writing
    and dumps into it; there is no temporary file and no replacing.  A save
    that returns [True] leaves the new state in full; one whose [open]
    fails returns [False] and leaves the previous state; one that fails
    while writing returns [False] and leaves a cut-off text, which a load
    then reads as the empty registry. *)
Theorem save_meetups_outcomes (io : Disk) (d : MeetupsData) (w : World) :
  let out := save_meetups io d w in
  fst out = saved_ok io /\
  file (snd out) =
    match io with
    | DiskOk => Some (Dumped d)
    | OpenFails => file w
    | WriteFails k => Some (Cut d k)
    end /\
  registry (snd out) =
    match io with
    | DiskOk => meetups d
    | OpenFails => registry w
    | WriteFails _ => []
    end.
Proof.
  destruct io; cbn; repeat split.
  unfold registry, get_meetups, bind, open_and_load. cbn.
  destruct (file w) as [c|]; [destruct (json_load c)|]; reflexivity.
Qed.

(* ================================================================= *)
(** ** Delete *)

(** C10: a caller without the permission is refused before anything else
    is done: whatever the id, in the store or not, and whatever the store,
    the reply is the refusal and the state is the same, no file opened and
    nothing logged. *)
Theorem eliminar_quedada_refused (io : Disk) (id_quedada : Z) (w : World) :
  eliminar_quedada io visitor id_quedada w = (SinPermisos, w).
Proof. reflexivity. Qed.

(** C7: for a caller with the permission and an id that no record of the
    registry has, whatever the registry, the reply is the not-found message
    for that id, and all that was done is the one load: the file holds what
    it held and was not opened for writing. *)
Theorem eliminar_quedada_missing (io : Disk) (i : Interaction) (id_quedada : Z) (w : World) :
  manage_messages i = true ->
  ~ In id_quedada (ids_of (registry w)) ->
  let out := eliminar_quedada io i id_quedada w in
  fst out = NoEncontrada id_quedada /\
  file (snd out) = file w /\
  snd out = snd (get_meetups w) /\
  writes (events (snd out)) = writes (events w).
Proof.
  intros P H. cbv zeta.
  rewrite (eliminar_quedada_not_found io i id_quedada w P H). cbn [fst snd].
  repeat split; [apply get_meetups_file|].
  unfold get_meetups, bind, open_and_load.
  destruct (file w) as [c|]; [destruct (json_load c)|]; reflexivity.
Qed.

Lemma eliminar_quedada_missing_witness :
  let w := snd (run picnic initial_world) in
  let out := eliminar_quedada DiskOk moderator 7 w in
  fst out = NoEncontrada 7 /\
  file (snd out) = file w /\
  snd out = snd (get_meetups w) /\
  writes (events (snd out)) = writes (events w).
Proof.
  apply (eliminar_quedada_missing DiskOk moderator 7 (snd (run picnic initial_world))).
  - reflexivity.
  - vm_compute. intros [H|[]]. discriminate H.
Defined.

Lemma not_in_app_ids n (l1 l2 : list Meetup) :
  ~ In n (ids_of l1) -> ~ In n (ids_of l2) -> ~ In n (ids_of (l1 ++ l2)).
Proof.
  unfold ids_of. rewrite map_app. intros H1 H2 H.
  apply in_app_or in H. tauto.
Qed.

(** C8: for a registry that has a record with the given id and a caller
    with the permission, a delete whose save succeeds answers with that
    record (the first with the id), and the store then holds the other
    records, each as it was and in the order they had; the ids being
    pairwise distinct, as they are in a registry, the id is gone from
    what a later load returns, which is what [/quedadas] reads. *)
Theorem eliminar_quedada_removes (i : Interaction) (id_quedada : Z) (w : World) :
  manage_messages i = true ->
  In id_quedada (ids_of (registry w)) ->
  exists before meetup after,
    registry w = before ++ meetup :: after /\
    id meetup = id_quedada /\
    ~ In id_quedada (ids_of before) /\
    let w' := snd (eliminar_quedada DiskOk i id_quedada w) in
    fst (eliminar_quedada DiskOk i id_quedada w) = QuedadaEliminada meetup /\
    file w' = Some (Dumped (mkData (before ++ after))) /\
    registry w' = before ++ after /\
    (NoDup (ids_of (registry w)) -> ~ In id_quedada (ids_of (registry w'))).
Proof.
  intros P H.
  destruct (first_occurrence _ _ H) as (l1 & m & l2 & R & Hm & Hn).
  exists l1, m, l2. split; [exact R|]. split; [exact Hm|]. split; [exact Hn|].
  destruct (eliminar_quedada_found DiskOk i id_quedada w l1 m l2 P R Hm Hn)
    as (w' & E & F).
  rewrite E. cbn [fst snd saved_ok file_after_save] in *.
  assert (R' : registry w' = l1 ++ l2) by (now rewrite (registry_dumped _ _ F)).
  repeat split; auto.
  intros ND. rewrite R'. apply not_in_app_ids; [exact Hn|].
  rewrite R in ND. unfold ids_of in ND. rewrite map_app in ND. cbn in ND.
  apply NoDup_remove_2 in ND. rewrite Hm in ND.
  intros H2. apply ND. apply in_or_app. now right.
Qed.

Lemma eliminar_quedada_removes_witness :
  let w := snd (run_all [picnic; picnic; picnic] initial_world) in
  let out := eliminar_quedada DiskOk moderator 2 w in
  (exists meetup, fst out = QuedadaEliminada meetup /\ id meetup = 2) /\
  ~ In 2 (ids_of (registry (snd out))).
Proof.
  cbv zeta.
  destruct (eliminar_quedada_removes moderator 2
              (snd (run_all [picnic; picnic; picnic] initial_world)))
    as (before & meetup & after & _ & Hm & _ & E & _ & _ & ND).
  - reflexivity.
  - vm_compute. auto.
  - split; [exists meetup; auto|].
    apply ND. vm_compute. repeat constructor; cbn; intuition discriminate.
Defined.

(* ================================================================= *)
(** ** Further properties of the storage functions *)

Lemma mkData_meetups d : mkData (meetups d) = d.
Proof. now destruct d. Qed.


Lemma registry_unreadable w : unreadable_store w -> registry w = [].
Proof.
  unfold registry, get_meetups, bind, open_and_load.
  intros [F|(c & e & F & J)]; rewrite F; [reflexivity|].
  destruct c; cbn in J; try discriminate; reflexivity.
Qed.

Lemma quedadas_reads_only_aux w : registry w = [] -> fst (quedadas w) = NoHayQuedadas.
Proof.
  intros R. destruct (quedadas_run w) as (w' & -> & _). now rewrite R.
Qed.


(** Load then save: saving back what was loaded leaves a store that
    parses to what was loaded; the file is the same when it held a complete
    dump, but a missing, cut-off or otherwise unparsable file is replaced by
    the dump of the empty registry. *)
Theorem load_then_save (w : World) :
  let loaded := get_meetups w in
  let w' := snd (save_meetups DiskOk (fst loaded) (snd loaded)) in
  file w' = Some (Dumped (mkData (registry w))) /\
  (forall d, file w = Some (Dumped d) -> file w' = file w) /\
  (unreadable_store w -> file w' = Some (Dumped default_meetups)).
Proof.
  cbv zeta.
  assert (E : file (snd (save_meetups DiskOk (fst (get_meetups w)) (snd (get_meetups w))))
              = Some (Dumped (mkData (registry w)))).
  { unfold registry. now rewrite mkData_meetups. }
  rewrite E. repeat split.
  - intros d F. now rewrite F, (registry_dumped w d F), mkData_meetups.
  - intros U. now rewrite (registry_unreadable w U).
Qed.

Lemma load_then_save_witness :
  let w := {| file := Some (Cut (mkData []) 0); events := [] |} in
  file (snd (save_meetups DiskOk (fst (get_meetups w)) (snd (get_meetups w))))
  = Some (Dumped default_meetups).
Proof.
  apply (load_then_save {| file := Some (Cut (mkData []) 0); events := [] |}).
  right. exists (Cut (mkData []) 0), JSONDecodeError. split; reflexivity.
Defined.

(* ================================================================= *)
(** ** Further properties of create and delete *)

Lemma nodup_snoc (l : list Z) x : NoDup l -> ~ In x l -> NoDup (l ++ [x]).
Proof.
  intros N H. apply NoDup_app; [exact N|repeat constructor; auto|].
  intros a Ha [<-|[]]. contradiction.
Qed.

(** A creation that passes its checks and is saved appends one record at
    the end of whatever the load returned: the records before it are as
    they were, the new one has no participants and an id that no stored
    record has, so distinct ids stay distinct.  This holds for every
    registry of records with integer ids that a load returns, also one
    that no run from the empty store leaves (ids that repeat, or are not
    positive), and for a file that is missing or does not parse. *)
Theorem crear_quedada_appends
    (titulo descripcion : string) (fecha hora : pystr) (lugar estado : string)
    (w : World) (dt : DateTime) :
  check_fecha_hora fecha hora = inr dt ->
  let out := crear_quedada DiskOk titulo descripcion fecha hora lugar estado w in
  exists m,
    fst out = QuedadaCreada m /\
    registry (snd out) = registry w ++ [m] /\
    participants m = [] /\
    location m = lugar /\
    date m = isoformat dt /\
    Forall (fun n => n < id m) (ids_of (registry w)) /\
    (NoDup (ids_of (registry w)) -> NoDup (ids_of (registry (snd out)))).
Proof.
  intros C. cbv zeta.
  destruct (crear_quedada_accepted DiskOk titulo descripcion fecha hora lugar estado w dt C)
    as (w' & -> & F).
  cbn [fst snd saved_ok file_after_save] in *.
  exists (new_meetup_of w titulo descripcion lugar estado dt).
  rewrite (registry_dumped _ _ F). cbn [meetups new_meetup_of participants location date id].
  assert (G : Forall (fun n => n < next_id (registry w)) (ids_of (registry w))).
  { rewrite Forall_forall. intros x. apply next_id_gt. }
  repeat split; auto.
  intros N. rewrite ids_of_app. cbn. apply nodup_snoc; [exact N|].
  rewrite Forall_forall in G. intros H. apply G in H. lia.
Qed.

Lemma crear_quedada_appends_witness :
  let w := snd (run_all [picnic; picnic] initial_world) in
  let out := crear_quedada DiskOk "Cena" "" "2025-01-31" "21:30" "Bar" "pendiente" w in
  exists m,
    fst out = QuedadaCreada m /\
    registry (snd out) = registry w ++ [m] /\
    participants m = [] /\
    location m = "Bar" /\
    date m = "2025-01-31T21:30:00+00:00" /\
    Forall (fun n => n < id m) (ids_of (registry w)) /\
    NoDup (ids_of (registry (snd out))).
Proof.
  cbv zeta.
  destruct (crear_quedada_appends "Cena" "" "2025-01-31" "21:30" "Bar" "pendiente"
              (snd (run_all [picnic; picnic] initial_world))
              (mkDateTime 2025 1 31 21 30) eq_refl)
    as (m & E & R & P & L & D & G & N).
  exists m. repeat split; auto.
  apply N. vm_compute. repeat constructor; cbn; intuition discriminate.
Defined.

(** On a store that cannot be read (no file, or a file that does not
    parse) a creation that passes its checks and is saved gets the id 1,
    and the store it leaves holds that record alone: what the file held is
    overwritten. *)
Theorem crear_quedada_on_unreadable_store
    (titulo descripcion : string) (fecha hora : pystr) (lugar estado : string)
    (w : World) (dt : DateTime) :
  unreadable_store w ->
  check_fecha_hora fecha hora = inr dt ->
  let out := crear_quedada DiskOk titulo descripcion fecha hora lugar estado w in
  exists m,
    fst out = QuedadaCreada m /\ id m = 1 /\
    file (snd out) = Some (Dumped (mkData [m])).
Proof.
  intros U C. cbv zeta.
  destruct (crear_quedada_accepted DiskOk titulo descripcion fecha hora lugar estado w dt C)
    as (w' & -> & F).
  cbn [fst snd saved_ok file_after_save] in *.
  exists (new_meetup_of w titulo descripcion lugar estado dt).
  rewrite F. split; [reflexivity|]. split.
  - cbn [new_meetup_of id]. now rewrite (registry_unreadable w U).
  - now rewrite (registry_unreadable w U) at 1.
Qed.

Lemma crear_quedada_on_unreadable_store_witness :
  let w := {| file := Some (Unparsable "{"); events := [] |} in
  let out := crear_quedada DiskOk "Picnic" "Bring food" "2024-06-01" "18:00" "Park" "activo" w in
  exists m,
    fst out = QuedadaCreada m /\ id m = 1 /\
    file (snd out) = Some (Dumped (mkData [m])).
Proof.
  apply (crear_quedada_on_unreadable_store "Picnic" "Bring food" "2024-06-01" "18:00"
           "Park" "activo" {| file := Some (Unparsable "{"); events := [] |}
           (mkDateTime 2024 6 1 18 0)).
  - right. exists (Unparsable "{"), JSONDecodeError. split; reflexivity.
  - reflexivity.
Defined.

(** Create, then delete what was created: a creation that is saved followed
    by the deletion, by a caller with the permission, of the id it
    returned answers with the same record twice and leaves the registry
    that a load returned before the two. *)
Theorem crear_then_eliminar
    (titulo descripcion : string) (fecha hora : pystr) (lugar estado : string)
    (w : World) (dt : DateTime)
    (i : Interaction) :
  check_fecha_hora fecha hora = inr dt ->
  manage_messages i = true ->
  let crear := Crear DiskOk titulo descripcion fecha hora lugar estado in
  exists m,
    fst (run crear w) = QuedadaCreada m /\
    fst (run_all [crear; Eliminar DiskOk i (id m)] w)
      = [QuedadaCreada m; QuedadaEliminada m] /\
    registry (snd (run_all [crear; Eliminar DiskOk i (id m)] w)) = registry w.
Proof.
  intros C P. cbv zeta.
  destruct (crear_quedada_accepted DiskOk titulo descripcion fecha hora lugar estado w dt C)
    as (w1 & E1 & F1).
  cbn [saved_ok file_after_save] in *.
  set (m := new_meetup_of w titulo descripcion lugar estado dt) in *.
  pose proof (registry_dumped _ _ F1) as R1. cbn [meetups] in R1.
  assert (N : ~ In (id m) (ids_of (registry w))).
  { intros H. apply next_id_gt in H. subst m. cbn [new_meetup_of id] in H. lia. }
  destruct (eliminar_quedada_found DiskOk i (id m) w1 (registry w) m [] P R1 eq_refl N)
    as (w2 & E2 & F2).
  cbn [saved_ok file_after_save] in *.
  exists m. rewrite !run_all_cons. cbn [run run_all ret fst snd].
  rewrite E1. cbn [fst snd]. rewrite E2. cbn [fst snd].
  repeat split. rewrite (registry_dumped _ _ F2). cbn [meetups]. apply app_nil_r.
Qed.

Lemma crear_then_eliminar_witness :
  let w := snd (run_all [picnic; picnic] initial_world) in
  exists m,
    fst (run picnic w) = QuedadaCreada m /\
    fst (run_all [picnic; Eliminar DiskOk moderator (id m)] w)
      = [QuedadaCreada m; QuedadaEliminada m] /\
    registry (snd (run_all [picnic; Eliminar DiskOk moderator (id m)] w)) = registry w.
Proof.
  apply (crear_then_eliminar "Picnic" "Bring food" "2024-06-01" "18:00" "Park" "activo"
           (snd (run_all [picnic; picnic] initial_world)) (mkDateTime 2024 6 1 18 0)
           moderator); reflexivity.
Defined.

(** Delete twice: in a registry of distinct ids, once a deletion of an id
    has been saved, a second deletion of the same id finds nothing and
    leaves the file as the first one left it. *)
Theorem eliminar_twice (io : Disk) (i : Interaction) (id_quedada : Z) (w : World) :
  manage_messages i = true ->
  NoDup (ids_of (registry w)) ->
  In id_quedada (ids_of (registry w)) ->
  let first := Eliminar DiskOk i id_quedada in
  let again := Eliminar io i id_quedada in
  exists m,
    id m = id_quedada /\
    fst (run_all [first; again] w) = [QuedadaEliminada m; NoEncontrada id_quedada] /\
    file (snd (run_all [first; again] w)) = file (snd (run first w)).
Proof.
  intros P ND H. cbv zeta.
  destruct (first_occurrence _ _ H) as (l1 & m & l2 & R & Hm & Hn).
  destruct (eliminar_quedada_found DiskOk i id_quedada w l1 m l2 P R Hm Hn)
    as (w1 & E1 & F1).
  cbn [saved_ok file_after_save] in *.
  pose proof (registry_dumped _ _ F1) as R1. cbn [meetups] in R1.
  assert (N : ~ In id_quedada (ids_of (registry w1))).
  { rewrite R1. apply not_in_app_ids; [exact Hn|].
    rewrite R, ids_of_app in ND. cbn in ND.
    apply NoDup_remove_2 in ND. rewrite Hm in ND.
    intros H2. apply ND. apply in_or_app. now right. }
  exists m. split; [exact Hm|].
  rewrite !run_all_cons. cbn [run run_all ret fst snd].
  rewrite E1. cbn [fst snd].
  rewrite (eliminar_quedada_not_found io i id_quedada w1 P N). cbn [fst snd].
  split; [reflexivity|apply get_meetups_file].
Qed.

Lemma eliminar_twice_witness :
  let w := snd (run_all [picnic; picnic; picnic] initial_world) in
  exists m,
    id m = 2 /\
    fst (run_all [Eliminar DiskOk moderator 2; Eliminar DiskOk moderator 2] w)
      = [QuedadaEliminada m; NoEncontrada 2] /\
    file (snd (run_all [Eliminar DiskOk moderator 2; Eliminar DiskOk moderator 2] w))
      = file (snd (run (Eliminar DiskOk moderator 2) w)).
Proof.
  apply (eliminar_twice DiskOk moderator 2
           (snd (run_all [picnic; picnic; picnic] initial_world))).
  - reflexivity.
  - vm_compute. repeat constructor; cbn; intuition discriminate.
  - vm_compute. auto.
Defined.

(** A write that breaks off loses the registry: a creation that passes
    its checks, or a deletion of an id that is stored, whose write stops
    early answers with its error message, and a load afterwards returns no
    record at all, so that [/quedadas] answers that there are none. *)
Theorem broken_write_loses_registry (k : nat) (w : World) :
  (forall titulo descripcion fecha hora lugar estado dt,
     check_fecha_hora fecha hora = inr dt ->
     let out := crear_quedada (WriteFails k) titulo descripcion fecha hora lugar estado w in
     fst out = ErrorAlCrear /\ registry (snd out) = [] /\
     fst (quedadas (snd out)) = NoHayQuedadas)
  /\
  (forall i id_quedada,
     manage_messages i = true ->
     In id_quedada (ids_of (registry w)) ->
     let out := eliminar_quedada (WriteFails k) i id_quedada w in
     fst out = ErrorAlEliminar /\ registry (snd out) = [] /\
     fst (quedadas (snd out)) = NoHayQuedadas).
Proof.
  split.
  - intros t de f h l e dt C. cbv zeta.
    destruct (crear_quedada_accepted (WriteFails k) t de f h l e w dt C) as (w' & -> & F).
    cbn [fst snd saved_ok file_after_save] in *.
    pose proof (registry_cut _ _ _ F) as R. repeat split; auto.
    now apply quedadas_reads_only_aux.
  - intros i n P H. cbv zeta.
    destruct (first_occurrence _ _ H) as (l1 & m & l2 & R & Hm & Hn).
    destruct (eliminar_quedada_found (WriteFails k) i n w l1 m l2 P R Hm Hn)
      as (w' & -> & F).
    cbn [fst snd saved_ok file_after_save] in *.
    pose proof (registry_cut _ _ _ F) as R'. repeat split; auto.
    now apply quedadas_reads_only_aux.
Qed.

Lemma broken_write_loses_registry_witness :
  let w := snd (run_all [picnic; picnic] initial_world) in
  (let out := crear_quedada (WriteFails 5) "Picnic" "Bring food" "2024-06-01" "18:00"
                "Park" "activo" w in
   fst out = ErrorAlCrear /\ registry (snd out) = [] /\
   fst (quedadas (snd out)) = NoHayQuedadas)
  /\
  (let out := eliminar_quedada (WriteFails 5) moderator 1 w in
   fst out = ErrorAlEliminar /\ registry (snd out) = [] /\
   fst (quedadas (snd out)) = NoHayQuedadas).
Proof.
  split.
  - apply (proj1 (broken_write_loses_registry 5
                    (snd (run_all [picnic; picnic] initial_world)))
             "Picnic" "Bring food" "2024-06-01" "18:00" "Park" "activo"
             (mkDateTime 2024 6 1 18 0)).
    reflexivity.
  - apply (proj2 (broken_write_loses_registry 5
                    (snd (run_all [picnic; picnic] initial_world))) moderator 1).
    + reflexivity.
    + vm_compute. auto.
Defined.

(** A save that cannot open the file changes nothing, and the command can
    be given again: a creation or a deletion whose [open] fails answers
    with its error message and leaves the file as it was, and the same
    command on a disk that works then answers as it would have at first. *)
Theorem failed_open_then_retry (w : World) :
  (forall titulo descripcion fecha hora lugar estado,
     let crear io := Crear io titulo descripcion fecha hora lugar estado in
     passes_checks fecha hora = true ->
     file (snd (run (crear OpenFails) w)) = file w /\
     fst (run_all [crear OpenFails; crear DiskOk] w)
       = [ErrorAlCrear; fst (run (crear DiskOk) w)])
  /\
  (forall i id_quedada,
     let eliminar io := Eliminar io i id_quedada in
     manage_messages i = true ->
     In id_quedada (ids_of (registry w)) ->
     file (snd (run (eliminar OpenFails) w)) = file w /\
     fst (run_all [eliminar OpenFails; eliminar DiskOk] w)
       = [ErrorAlEliminar; fst (run (eliminar DiskOk) w)]).
Proof.
  split.
  - intros t de f h l e crear C. unfold passes_checks in C.
    destruct (check_fecha_hora f h) as [|dt] eqn:Ch; [discriminate|]. clear C.
    subst crear. cbn [run].
    destruct (crear_quedada_accepted OpenFails t de f h l e w dt Ch) as (w1 & E1 & F1).
    destruct (crear_quedada_accepted DiskOk t de f h l e w dt Ch) as (w2 & E2 & _).
    destruct (crear_quedada_accepted DiskOk t de f h l e w1 dt Ch) as (w3 & E3 & _).
    cbn [saved_ok file_after_save] in *.
    rewrite !run_all_cons. cbn [run run_all ret fst snd].
    rewrite E1, E2. cbn [fst snd]. rewrite E3. cbn [fst].
    split; [exact F1|].
    unfold new_meetup_of. now rewrite (registry_file w1 w F1).
  - intros i n eliminar P H. subst eliminar. cbn [run].
    destruct (first_occurrence _ _ H) as (l1 & m & l2 & R & Hm & Hn).
    destruct (eliminar_quedada_found OpenFails i n w l1 m l2 P R Hm Hn) as (w1 & E1 & F1).
    destruct (eliminar_quedada_found DiskOk i n w l1 m l2 P R Hm Hn) as (w2 & E2 & _).
    cbn [saved_ok file_after_save] in *.
    assert (R1 : registry w1 = l1 ++ m :: l2) by (now rewrite (registry_file w1 w F1)).
    destruct (eliminar_quedada_found DiskOk i n w1 l1 m l2 P R1 Hm Hn) as (w3 & E3 & _).
    rewrite !run_all_cons. cbn [run run_all ret fst snd].
    rewrite E1, E2. cbn [fst snd]. rewrite E3. cbn [fst saved_ok].
    split; [exact F1|reflexivity].
Qed.

Lemma failed_open_then_retry_witness :
  let w := snd (run_all [picnic; picnic] initial_world) in
  (file (snd (run (Crear OpenFails "Cena" "" "2025-01-31" "21:30" "Bar" "pendiente") w))
     = file w /\
   fst (run_all [Crear OpenFails "Cena" "" "2025-01-31" "21:30" "Bar" "pendiente";
                 Crear DiskOk "Cena" "" "2025-01-31" "21:30" "Bar" "pendiente"] w)
     = [ErrorAlCrear;
        fst (run (Crear DiskOk "Cena" "" "2025-01-31" "21:30" "Bar" "pendiente") w)])
  /\
  (file (snd (run (Eliminar OpenFails moderator 1) w)) = file w /\
   fst (run_all [Eliminar OpenFails moderator 1; Eliminar DiskOk moderator 1] w)
     = [ErrorAlEliminar; fst (run (Eliminar DiskOk moderator 1) w)]).
Proof.
  split.
  - apply (proj1 (failed_open_then_retry (snd (run_all [picnic; picnic] initial_world)))
             "Cena" "" "2025-01-31" "21:30" "Bar" "pendiente").
    reflexivity.
  - apply (proj2 (failed_open_then_retry (snd (run_all [picnic; picnic] initial_world)))
             moderator 1).
    + reflexivity.
    + vm_compute. auto.
Defined.

(* ================================================================= *)
(** ** Further invariants of runs from the empty store *)

(** What a command does to the registry, with the record it adds or
    removes. *)
Lemma run_cases c w :
  (registry (snd (run c w)) = registry w /\ created_ids [fst (run c w)] = [])
  \/ (registry (snd (run c w)) = [] /\ created_ids [fst (run c w)] = [])
  \/ (exists t de l e dt,
        calendar_datetime dt /\
        fst (run c w) = QuedadaCreada (new_meetup_of w t de l e dt) /\
        registry (snd (run c w)) = registry w ++ [new_meetup_of w t de l e dt])
  \/ (exists l1 m l2,
        registry w = l1 ++ m :: l2 /\
        registry (snd (run c w)) = l1 ++ l2 /\
        created_ids [fst (run c w)] = []).
Proof.
  destruct c as [|io t de f h l e|io i n]; cbn [run].
  - destruct (quedadas_run w) as (w' & -> & F). left. cbn [fst snd].
    split; [now apply registry_file|]. now destruct (registry w).
  - destruct (check_fecha_hora f h) as [r|dt] eqn:C.
    + rewrite (crear_quedada_rejected io t de f h l e w r C). left. cbn [fst snd].
      split; [reflexivity|]. apply check_fecha_hora_rejection in C.
      destruct r; try discriminate; reflexivity.
    + destruct (crear_quedada_accepted io t de f h l e w dt C) as (w' & -> & F).
      cbn [fst snd]. apply registry_after_save in F.
      destruct io; cbn [saved_ok meetups] in *; auto.
      right. right. left. exists t, de, l, e, dt.
      split; [|split; auto]. apply check_fecha_hora_inr in C. apply C.
  - destruct (manage_messages i) eqn:P.
    2: { rewrite (eliminar_quedada_denied io i n w P). left. auto. }
    destruct (in_dec Z.eq_dec n (ids_of (registry w))) as [H|H].
    + destruct (first_occurrence _ _ H) as (l1 & m & l2 & R & Hm & Hn).
      destruct (eliminar_quedada_found io i n w l1 m l2 P R Hm Hn) as (w' & -> & F).
      cbn [fst snd]. apply registry_after_save in F.
      destruct io; cbn [saved_ok meetups] in *; auto.
      right. right. right. exists l1, m, l2. auto.
    + rewrite (eliminar_quedada_not_found io i n w P H). cbn [fst snd].
      left. split; [apply registry_file, get_meetups_file|reflexivity].
Qed.

Lemma created_ids_cons r rs : created_ids (r :: rs) = created_ids [r] ++ created_ids rs.
Proof. destruct r; reflexivity. Qed.

Lemma run_all_written cs : forall w,
  Forall written_by_crear (registry w) ->
  Forall written_by_crear (registry (snd (run_all cs w))).
Proof.
  induction cs as [|c cs IH]; intros w H; [exact H|].
  rewrite run_all_cons. cbn [snd]. apply IH.
  destruct (run_cases c w)
    as [[-> _]|[[-> _]|[(t & de & l & e & dt & C & _ & ->)|(l1 & m & l2 & R & -> & _)]]].
  - exact H.
  - constructor.
  - apply Forall_app. split; [exact H|]. repeat constructor. exists dt. auto.
  - rewrite R in H. apply Forall_app in H as [H1 H2]. apply Forall_app.
    split; [exact H1|]. now inversion H2.
Qed.

(** In every state that commands reach from the empty store, each stored
    record has no participants (no command of the bot adds one, so
    [/quedadas] shows the word for none on every record) and a date that is
    the text of a date and time that exists. *)
Theorem records_written_by_crear (cs : list Command) :
  let ms := registry (snd (run_all cs initial_world)) in
  Forall written_by_crear ms /\
  Forall (fun m => participants_text m = "Ninguno") ms.
Proof.
  cbv zeta.
  assert (H : Forall written_by_crear (registry (snd (run_all cs initial_world)))).
  { apply run_all_written. constructor. }
  split; [exact H|].
  apply Forall_impl with (2 := H). intros m [P _].
  unfold participants_text. now rewrite P.
Qed.

Lemma next_id_le ms k : 0 <= k -> Forall (fun n => n <= k) (ids_of ms) -> next_id ms <= k + 1.
Proof.
  intros K H. unfold next_id. destruct (ids_of ms) as [|x xs]; [lia|].
  destruct (py_max_is_max x xs) as [I _].
  rewrite Forall_forall in H. apply H in I. lia.
Qed.

Lemma run_all_bounded cs : forall w k,
  0 <= k ->
  Forall (fun n => n <= k) (ids_of (registry w)) ->
  Forall (fun n => n <= k + Z.of_nat (List.length (created_ids (fst (run_all cs w)))))
         (ids_of (registry (snd (run_all cs w)))).
Proof.
  induction cs as [|c cs IH]; intros w k K H.
  - cbn. eapply Forall_impl; [|exact H]. intros a Ha; cbv beta in *; lia.
  - rewrite run_all_cons. cbn [fst snd].
    rewrite created_ids_cons, length_app, Nat2Z.inj_add.
    destruct (run_cases c w)
      as [[R E]|[[R E]|[(t & de & l & e & dt & _ & E & R)|(l1 & m & l2 & R0 & R & E)]]];
      rewrite ?E; cbn [List.length created_ids].
    + specialize (IH (snd (run c w)) k K). rewrite R in IH.
      eapply Forall_impl; [|apply IH, H]. intros a Ha; cbv beta in *; lia.
    + specialize (IH (snd (run c w)) k K). rewrite R in IH.
      eapply Forall_impl; [|apply IH; constructor]. intros a Ha; cbv beta in *; lia.
    + specialize (IH (snd (run c w)) (k + 1) ltac:(lia)). rewrite R in IH.
      eapply Forall_impl; [|apply IH].
      * intros a Ha; cbv beta in *; lia.
      * rewrite ids_of_app. apply Forall_app. split.
        -- eapply Forall_impl; [|exact H]. intros a Ha; cbv beta in *; lia.
        -- repeat constructor. cbn [new_meetup_of id]. now apply next_id_le.
    + specialize (IH (snd (run c w)) k K). rewrite R in IH.
      eapply Forall_impl; [|apply IH].
      * intros a Ha; cbv beta in *; lia.
      * rewrite R0, ids_of_app in H. cbn in H. apply Forall_app in H as [H1 H2].
        rewrite ids_of_app. apply Forall_app. split; [exact H1|]. now inversion H2.
Qed.

(** Ids stay small: in every state that commands reach from the empty
    store, no stored id is greater than the number of creations that have
    succeeded so far. *)
Theorem ids_bounded_by_creations (cs : list Command) :
  let out := run_all cs initial_world in
  Forall (fun n => n <= Z.of_nat (List.length (created_ids (fst out))))
         (ids_of (registry (snd out))).
Proof.
  cbv zeta.
  pose proof (run_all_bounded cs initial_world 0 ltac:(lia)) as H.
  cbn [Z.add] in H. apply H. constructor.
Qed.

Lemma next_id_snoc ms m :
  id m = next_id ms -> next_id (ms ++ [m]) = id m + 1.
Proof.
  intros E. apply next_id_max. rewrite ids_of_app. cbn. split.
  - apply in_or_app. right. now left.
  - intros x Hx. apply in_app_or in Hx as [Hx|[<-|[]]]; [|lia].
    apply next_id_gt in Hx. lia.
Qed.

Lemma sound_creates_ids cs : forall w,
  forallb sound_create cs = true ->
  created_ids (fst (run_all cs w))
    = map (fun j => next_id (registry w) + Z.of_nat j) (seq 0 (List.length cs)) /\
  ids_of (registry (snd (run_all cs w)))
    = ids_of (registry w) ++ created_ids (fst (run_all cs w)).
Proof.
  induction cs as [|c cs IH]; intros w H.
  - cbn. now rewrite app_nil_r.
  - cbn [forallb] in H. apply andb_true_iff in H as [Hc Hcs].
    rewrite run_all_cons. cbn [fst snd].
    destruct c as [|io t de f h l e|]; try discriminate.
    destruct io; try discriminate. cbn [sound_create] in Hc. unfold passes_checks in Hc.
    destruct (check_fecha_hora f h) as [|dt] eqn:C; [discriminate|].
    cbn [run].
    destruct (crear_quedada_accepted DiskOk t de f h l e w dt C) as (w1 & E & F).
    rewrite E. cbn [fst snd saved_ok file_after_save created_ids] in *.
    pose proof (registry_dumped _ _ F) as R. cbn [meetups] in R.
    destruct (IH w1 Hcs) as [IH1 IH2]. rewrite IH2, IH1, R.
    rewrite (next_id_snoc (registry w) (new_meetup_of w t de l e dt) eq_refl).
    cbn [new_meetup_of id List.length seq map].
    rewrite <- seq_shift, map_map, ids_of_app. cbn [ids_of map id app].
    rewrite <- app_assoc. cbn [app]. rewrite Z.add_0_r. split.
    + f_equal. apply map_ext. intros j. lia.
    + reflexivity.
Qed.

(** Creations alone number the records 1, 2, 3, ...: in a run, from the
    empty store, of creations that pass their checks and are saved, the
    ids returned are 1 up to the number of creations, with no gap, and the
    store then holds exactly these ids in this order. *)
Theorem creations_number_from_one (cs : list Command) :
  forallb sound_create cs = true ->
  let out := run_all cs initial_world in
  created_ids (fst out) = map Z.of_nat (seq 1 (List.length cs)) /\
  ids_of (registry (snd out)) = map Z.of_nat (seq 1 (List.length cs)).
Proof.
  intros H. cbv zeta.
  destruct (sound_creates_ids cs initial_world H) as [E1 E2].
  assert (E : created_ids (fst (run_all cs initial_world))
              = map Z.of_nat (seq 1 (List.length cs))).
  { rewrite E1. rewrite <- seq_shift, map_map. apply map_ext. intros j.
    change (next_id (registry initial_world)) with 1. lia. }
  split; [exact E|]. rewrite E2, E. reflexivity.
Qed.

Lemma creations_number_from_one_witness :
  let cs := [picnic; Crear DiskOk "Cena" "" "2025-01-31" "21:30" "Bar" "pendiente"; picnic] in
  created_ids (fst (run_all cs initial_world)) = [1; 2; 3] /\
  ids_of (registry (snd (run_all cs initial_world))) = [1; 2; 3].
Proof.
  apply (creations_number_from_one
           [picnic; Crear DiskOk "Cena" "" "2025-01-31" "21:30" "Bar" "pendiente"; picnic]).
  reflexivity.
Defined.

(* ================================================================= *)
(** ** Further properties of the texts *)




Lemma string_append_assoc (a b c : string) : ((a ++ b) ++ c = a ++ (b ++ c))%string.
Proof. induction a as [|x a IH]; cbn; [reflexivity|now rewrite IH]. Qed.

Lemma as_ascii_digit_of c v : digit_of c v -> as_ascii_digit c = 48 + v.
Proof. intros H. apply decimal_of_digit in H. unfold as_ascii_digit. now rewrite H. Qed.

(** [zfill] writes a number with the ASCII digits of the digits that it
    was read from. *)
Lemma zfill_reads_as cs n :
  reads_as cs n -> of_string (zfill (List.length cs) n) = map as_ascii_digit cs.
Proof.
  induction 1 as [|cs n c v R IH D]; [reflexivity|].
  pose proof D as [V _].
  rewrite length_app, Nat.add_1_r, map_app. cbn [List.length zfill map].
  rewrite of_string_app.
  change (of_string (String (digit_char (10 * n + v)) ""))
    with [Z.of_nat (nat_of_ascii (digit_char (10 * n + v)))].
  rewrite digit_char_code.
  replace ((10 * n + v) / 10) with n
    by (apply Z.div_unique with (r := v); lia).
  replace ((10 * n + v) mod 10) with v
    by (apply Z.mod_unique with (q := n); lia).
  now rewrite IH, (as_ascii_digit_of c v D).
Qed.

Lemma numeral_zfill w cs n :
  numeral w cs n -> of_string (zfill w n) = map as_ascii_digit cs.
Proof. intros (L & R). subst w. now apply zfill_reads_as. Qed.

Lemma firstn_prefix {A} (pre rest : list A) : firstn (List.length pre) (pre ++ rest) = pre.
Proof. induction pre as [|c pre IH]; cbn; [reflexivity|now rewrite IH]. Qed.

(** The date that is stored is the date and the time that were typed, in
    ASCII digits: for texts that pass the checks, [isoformat] gives back
    the ten characters of the date, a [T], the five characters of the time
    and [:00+00:00]. *)
Lemma isoformat_of_checked fecha hora dt :
  check_fecha_hora fecha hora = inr dt ->
  of_string (isoformat dt)
  = map as_ascii_digit (firstn 10 fecha) ++ of_string "T"
    ++ map as_ascii_digit (firstn 5 hora) ++ of_string ":00+00:00".
Proof.
  intros C. apply check_fecha_hora_inr in C.
  destruct C as ((ys & ms & ds & tl & E & Y & Mo & D & _)
                 & (hs & mis & tl' & E' & Hh & Mi & _) & _).
  unfold isoformat. rewrite !of_string_app.
  rewrite (numeral_zfill _ _ _ Y), (numeral_zfill _ _ _ Mo), (numeral_zfill _ _ _ D),
          (numeral_zfill _ _ _ Hh), (numeral_zfill _ _ _ Mi).
  subst fecha hora.
  destruct Y as (LY & _), Mo as (LM & _), D as (LD & _), Hh as (LH & _), Mi as (LMi & _).
  replace (ys ++ dash :: ms ++ dash :: ds ++ tl)
    with ((ys ++ dash :: ms ++ dash :: ds) ++ tl)
    by (rewrite <- !app_assoc; cbn [app]; now rewrite <- !app_assoc).
  replace (hs ++ colon :: mis ++ tl') with ((hs ++ colon :: mis) ++ tl')
    by (now rewrite <- !app_assoc).
  replace 10%nat with (List.length (ys ++ dash :: ms ++ dash :: ds))
    by (rewrite !length_app; cbn [List.length]; rewrite !length_app;
        cbn [List.length]; lia).
  replace 5%nat with (List.length (hs ++ colon :: mis))
    by (rewrite !length_app; cbn [List.length]; lia).
  rewrite !firstn_prefix.
  rewrite !map_app. cbn [map]. rewrite !map_app. cbn [map].
  change (as_ascii_digit dash) with dash. change (as_ascii_digit colon) with colon.
  change (of_string "-") with [dash]. change (of_string ":") with [colon].
  rewrite <- !app_assoc. cbn [app]. rewrite <- !app_assoc. reflexivity.
Qed.

(** The embed of a creation is sent only once the record is saved, and it
    shows what was stored: when [crear_quedada] answers with the embed,
    the disk worked, the record is the last one of the store, its title,
    description, place and status are the texts given, it has no
    participants, and its date is the first ten characters of the date
    typed, a [T], the first five characters of the time typed and
    [:00+00:00], where a digit of another script is written as the ASCII
    digit of the same value. *)
Theorem created_record_shows_input (io : Disk)
    (titulo descripcion : string) (fecha hora : pystr) (lugar estado : string)
    (w : World) (m : Meetup) :
  let out := crear_quedada io titulo descripcion fecha hora lugar estado w in
  fst out = QuedadaCreada m ->
  io = DiskOk /\
  registry (snd out) = registry w ++ [m] /\
  title m = titulo /\ description m = descripcion /\
  location m = lugar /\ status m = estado /\ participants m = [] /\
  of_string (date m)
  = map as_ascii_digit (firstn 10 fecha) ++ of_string "T"
    ++ map as_ascii_digit (firstn 5 hora) ++ of_string ":00+00:00".
Proof.
  cbv zeta. destruct (check_fecha_hora fecha hora) as [r|dt] eqn:C.
  - rewrite (crear_quedada_rejected io _ _ _ _ _ _ w r C). cbn [fst].
    intros ->. apply check_fecha_hora_rejection in C. discriminate C.
  - destruct (crear_quedada_accepted io titulo descripcion fecha hora lugar estado w dt C)
      as (w' & -> & F).
    cbn [fst snd]. destruct io; cbn [saved_ok file_after_save] in *; try discriminate.
    intros H. inversion H; subst m; clear H.
    rewrite (registry_dumped _ _ F).
    cbn [meetups new_meetup_of title description location status participants date].
    repeat split. now apply isoformat_of_checked.
Qed.

Lemma created_record_shows_input_witness :
  let out := crear_quedada DiskOk "Cena" ""
               [65298; 65296; 65298; 65301; 45; 48; 49; 45; 51; 49] "21:30"
               "Bar" "pendiente" initial_world in
  exists m, fst out = QuedadaCreada m /\
            registry (snd out) = [m] /\
            of_string (date m) = of_string "2025-01-31T21:30:00+00:00".
Proof.
  cbv zeta.
  eexists. split; [reflexivity|].
  destruct (created_record_shows_input DiskOk "Cena" ""
              [65298; 65296; 65298; 65301; 45; 48; 49; 45; 51; 49] "21:30" "Bar"
              "pendiente" initial_world _ eq_refl) as (_ & R & _ & _ & _ & _ & _ & D).
  split; [exact R|exact D].
Defined.

Lemma py_str_inj a b : py_str a = py_str b -> a = b.
Proof.
  unfold py_str. intros H. apply DecimalZ.to_int_inj.
  apply (f_equal NilEmpty.int_of_string) in H.
  rewrite !NilEmpty.isi in H. now inversion H.
Qed.

(** The buttons of a listing can be told apart: two records get the same
    [custom_id] only when they have the same id, and so, in every state
    that commands reach from the empty store, the [custom_id]s of the
    buttons that [/quedadas] builds are pairwise distinct. *)
Theorem button_ids_distinct (cs : list Command) :
  (forall m1 m2, join_custom_id m1 = join_custom_id m2 <-> id m1 = id m2) /\
  NoDup (button_ids (registry (snd (run_all cs initial_world)))).
Proof.
  assert (I : forall a b, ("join_meetup_" ++ py_str a)%string
                          = ("join_meetup_" ++ py_str b)%string -> a = b).
  { intros a b H. cbn [append] in H. inversion H. now apply py_str_inj. }
  split.
  - intros m1 m2. unfold join_custom_id. split; [apply I|now intros ->].
  - unfold button_ids.
    replace (map join_custom_id (registry (snd (run_all cs initial_world))))
      with (map (fun n => ("join_meetup_" ++ py_str n)%string)
                (ids_of (registry (snd (run_all cs initial_world)))))
      by (unfold ids_of; now rewrite map_map).
    apply Injective_map_NoDup; [exact I|].
    apply sorted_nodup.
    apply (run_all_invariant cs initial_world). split; constructor.
Qed.

(** No command rewrites a record: after any command, every record of the
    registry either was in it before the command, unchanged, or is the
    record that the command has just created and shown. *)
Theorem records_never_altered (c : Command) (w : World) (m : Meetup) :
  In m (registry (snd (run c w))) ->
  In m (registry w) \/ fst (run c w) = QuedadaCreada m.
Proof.
  destruct (run_cases c w)
    as [[-> _]|[[-> _]|[(t & de & l & e & dt & _ & E & ->)|(l1 & x & l2 & R & -> & _)]]].
  - auto.
  - intros [].
  - intros H. apply in_app_or in H as [H|[<-|[]]]; auto.
  - intros H. left. rewrite R. apply in_app_or in H. apply in_or_app.
    destruct H; [now left|right; now right].
Qed.

Lemma records_never_altered_witness :
  let w := snd (run_all [picnic; picnic] initial_world) in
  let c := Eliminar DiskOk moderator 1 in
  let m := {| id := 2; title := "Picnic"; description := "Bring food";
              date := "2024-06-01T18:00:00+00:00"; location := "Park";
              status := "activo"; participants := [] |} in
  In m (registry w) \/ fst (run c w) = QuedadaCreada m.
Proof.
  apply (records_never_altered (Eliminar DiskOk moderator 1)
           (snd (run_all [picnic; picnic] initial_world))).
  vm_compute. auto.
Defined.

(** A deletion takes out one record, also from a store where ids repeat:
    for a caller with the permission and an id that is stored, after a
    deletion that is saved the registry has one record less, the id has
    one record less, and every other id has as many records as before. *)
Theorem eliminar_quedada_removes_one (i : Interaction) (id_quedada : Z) (w : World) :
  manage_messages i = true ->
  In id_quedada (ids_of (registry w)) ->
  let w' := snd (eliminar_quedada DiskOk i id_quedada w) in
  S (List.length (registry w')) = List.length (registry w) /\
  forall k,
    count_occ Z.eq_dec (ids_of (registry w)) k
    = (count_occ Z.eq_dec (ids_of (registry w')) k
       + (if Z.eq_dec k id_quedada then 1 else 0))%nat.
Proof.
  intros P H. cbv zeta.
  destruct (first_occurrence _ _ H) as (l1 & m & l2 & R & Hm & Hn).
  destruct (eliminar_quedada_found DiskOk i id_quedada w l1 m l2 P R Hm Hn)
    as (w' & -> & F).
  cbn [fst snd saved_ok file_after_save] in *.
  rewrite (registry_dumped _ _ F), R. cbn [meetups]. split.
  - rewrite !length_app. cbn. lia.
  - intros k. rewrite !ids_of_app, !count_occ_app. cbn [ids_of map count_occ].
    rewrite Hm. unfold ids_of.
    destruct (Z.eq_dec id_quedada k), (Z.eq_dec k id_quedada); lia.
Qed.

Lemma eliminar_quedada_removes_one_witness :
  let w := {| file := Some (Dumped (mkData
                 [mkMeetup 4 "a" "" "" "" "" []; mkMeetup 4 "b" "" "" "" "" []]));
              events := [] |} in
  let w' := snd (eliminar_quedada DiskOk moderator 4 w) in
  S (List.length (registry w')) = List.length (registry w) /\
  count_occ Z.eq_dec (ids_of (registry w')) 4 = 1%nat.
Proof.
  cbv zeta.
  destruct (eliminar_quedada_removes_one moderator 4
              {| file := Some (Dumped (mkData
                   [mkMeetup 4 "a" "" "" "" "" []; mkMeetup 4 "b" "" "" "" "" []]));
                 events := [] |}) as [L C].
  - reflexivity.
  - vm_compute. auto.
  - split; [exact L|]. specialize (C 4). vm_compute in C. vm_compute. lia.
Defined.

(* ================================================================= *)
(** ** The scenario of the specification *)

(** From the empty store: two creations get the ids 1 and 2 with no
    participants, deleting 1 answers with the first record, the listing then
    has the second alone to show, and deleting 1 again finds nothing. *)
Example picnic_scenario :
  let m n := {| id := n; title := "Picnic"; description := "Bring food";
                date := "2024-06-01T18:00:00+00:00"; location := "Park";
                status := "activo"; participants := [] |} in
  fst (run_all [picnic; picnic; Eliminar DiskOk moderator 1; Quedadas;
                Eliminar DiskOk moderator 1] initial_world)
  = [QuedadaCreada (m 1); QuedadaCreada (m 2); QuedadaEliminada (m 1);
     ListaQuedadas [m 2]; NoEncontrada 1].
Proof. reflexivity. Qed.

(** A date followed by a newline passes [date_regex] and is read as the
    date. *)
Example fecha_with_newline :
  check_fecha_hora (of_string "2024-06-01" ++ [newline]) "18:00"
  = inr (mkDateTime 2024 6 1 18 0).
Proof. reflexivity. Qed.

(** Fullwidth digits pass [date_regex] and [int] reads them. *)
Example fecha_fullwidth :
  check_fecha_hora
    [65298; 65296; 65298; 65300; 45; 65296; 65302; 45; 65296; 65297] "18:00"
  = inr (mkDateTime 2024 6 1 18 0).
Proof. reflexivity. Qed.
